(** * scGAT, [transduction/load_data.py]: a Rocq model of the script

    The script prepares a single attributed graph (features, adjacency,
    labels, train/val/test masks), partitions it into clusters, assembles
    mini-batches of clusters, trains a two-layer GAT with early stopping and
    restores the best checkpoint.  The numerical kernels (tensor algebra,
    autograd, METIS partitioning, sklearn's splitter) are dependencies; this
    development embeds the control and data logic that the script itself
    contains:

    - [FileNames]: the string operations behind the checkpoint file names
      ([str.format], [str.split], [int], the hidden-file test of [glob]);
    - [Trainer]: the epoch loop of lines 353-392 (best / best_epoch /
      bad_counter bookkeeping, checkpoint files, restore);
    - [Metrics]: [accuracy], [masked_nll_loss], [masked_accuracy]
      (lines 42-62) in exact rational arithmetic;
    - [Masks]: the mask construction of lines 242-250;
    - [Cluster]: [ClusterData.__getitem__], [HelperDataset.__getitem__] and
      [ClusterLoader.collate] (lines 128-224).

    Exceptions are values of [exn]; a computation that can raise returns
    [exn + A]. *)

From Stdlib Require Import QArith Qcanon Qround.
From Stdlib Require Import Decimal DecimalNat DecimalString Ascii String.
From stdpp Require Import gmap strings list fin_maps.

(** ** Exceptions and the error monad *)

Inductive exn : Type :=
| NameError (name : string)
| IndexError
| ValueError
| FileNotFoundError
| Raised (what : string).

Definition M (A : Type) : Type := exn + A.

Definition raise {A : Type} (e : exn) : M A := inl e.

#[global] Instance M_ret : MRet M := λ A a, inr a.

(** Sequencing of statements: an exception in the first statement is the
    result of the sequence; the script has no [try] statement, so no other
    combinator on exceptions is needed. *)
#[global] Instance M_bind : MBind M := λ A B k c,
  match c with
  | inl e => inl e
  | inr a => k a
  end.

Definition ret {A : Type} (a : A) : M A := mret a.

(** ** File names (lines 361, 372-382, 389)

    The strings that the driver builds and takes apart:
    ['{}-'.format(epoch)+replicate+'.pkl'] and
    [int(file.split('-'+replicate+'.pkl')[0])]. *)

Module FileNames.

(** ['{}'.format(n)] for an [int] that is not negative: its decimal
    digits. *)
Definition str (n : nat) : string := NilEmpty.string_of_uint (Nat.to_uint n).

(** [s.startswith(p)] *)
Definition startswith (s p : string) : bool := String.prefix p s.

(** [file.split(sep)[0]] for a separator that is not empty: what precedes
    the first occurrence of [sep], the whole of [file] when there is
    none. *)
Fixpoint split_head (sep file : string) : string :=
  if startswith file sep then EmptyString
  else match file with
       | EmptyString => EmptyString
       | String c rest => String c (split_head sep rest)
       end.

(** ASCII white space, as [int] strips it. *)
Definition is_space (c : ascii) : bool :=
  let n := nat_of_ascii c in
  (9 <=? n) && (n <=? 13) || (28 <=? n) && (n <=? 32).

Definition is_digit (c : ascii) : bool :=
  let n := nat_of_ascii c in (48 <=? n) && (n <=? 57).

Fixpoint lstrip (s : string) : string :=
  match s with
  | String c rest => if is_space c then lstrip rest else s
  | EmptyString => EmptyString
  end.

Fixpoint rstrip (s : string) : string :=
  match s with
  | EmptyString => EmptyString
  | String c rest =>
      match rstrip rest with
      | EmptyString => if is_space c then EmptyString else String c EmptyString
      | kept => String c kept
      end
  end.

Definition strip (s : string) : string := rstrip (lstrip s).

(** The digits of a literal after one of its digits: single underscores
    may separate digits. *)
Fixpoint digits_after_digit (s : string) : option string :=
  match s with
  | EmptyString => Some EmptyString
  | String "_" (String c rest) =>
      if is_digit c then String c <$> digits_after_digit rest else None
  | String c rest =>
      if is_digit c then String c <$> digits_after_digit rest else None
  end.

Definition digits (s : string) : option string :=
  match s with
  | String c rest =>
      if is_digit c then String c <$> digits_after_digit rest else None
  | EmptyString => None
  end.

(** [int(s)] on an ASCII string, base 10: surrounding white space, one
    optional sign, digits.  [None] is [ValueError]. *)
Definition int (s : string) : option Z :=
  let s := strip s in
  let '(negative, body) :=
    match s with
    | String "+" rest => (false, rest)
    | String "-" rest => (true, rest)
    | _ => (false, s)
    end in
  ds ← digits body;
  d ← NilEmpty.uint_of_string ds;
  let n := Z.of_nat (Nat.of_uint d) in
  Some (if negative : bool then (- n)%Z else n).

(** Every character is a decimal digit. *)
Fixpoint all_digits (s : string) : bool :=
  match s with
  | EmptyString => true
  | String c rest => is_digit c && all_digits rest
  end.

(** [glob._ishidden] *)
Definition ishidden (name : string) : bool := startswith name ".".

(** [s.endswith(suffix)] *)
Fixpoint endswith (s suffix : string) : bool :=
  if String.eqb s suffix then true
  else match s with
       | EmptyString => false
       | String _ rest => endswith rest suffix
       end.

(** [fnmatch.fnmatch(name, pat)] on the patterns ['*' + literal] whose
    literal has none of the characters [*], [?] and [[]: the names that end
    with the literal. *)
Definition fnmatch_star_literal (name pat : string) : bool :=
  match pat with
  | String "*" literal => endswith name literal
  | _ => String.eqb name pat
  end.

End FileNames.

(** ** The training driver (lines 353-392) *)

Module Trainer.
Import FileNames.

(** Calls to the file-system dependencies that the driver performs, with
    the file name they are given. *)
Inductive io_call : Type :=
| TorchSave (file : string)
| OsRemove (file : string)
| TorchLoad (file : string).

(** What happened to the working directory. *)
Inductive fs_event : Type :=
| Wrote (file : string)
| Removed (file : string).

#[global] Instance fs_event_eq_dec : EqDecision fs_event.
Proof. solve_decision. Defined.

Section Driver.

(** [TS] is everything [train] mutates (model parameters, optimizer
    accumulators, random state); [SD] is a state dict.  The working
    directory is a map from file names to what [torch.load] reads from
    them. *)
Context {TS SD : Type}.

Variable state_dict : TS → SD.
Variable load_state_dict : SD → TS → TS.

(** [train(epoch)]: one pass over the loader; returns the epoch loss. *)
Variable train : nat → TS → M (TS * Qc).

(** [compute_test()], run on the restored model. *)
Variable compute_test : TS → M unit.

(** [fnmatch.fnmatch(name, pat)], by which [glob] selects names. *)
Variable fnmatch : string → string → bool.

(** The environment: which dependency calls raise, and what. *)
Variable io_error : io_call → option exn.

(** The free names [nEpochs], [patience] and [replicate] of the module. *)
Variable nEpochs patience : nat.
Variable replicate : string.

Record run_state : Type := {
  trainer : TS;
  loss_values : list Qc;
  bad_counter : nat;
  best : Qc;
  best_epoch : nat;
  files : gmap string SD;
  log : list fs_event
}.

(** ['{}-'.format(epoch)+replicate+'.pkl'] *)
Definition checkpoint_name (epoch : nat) : string :=
  str epoch +:+ "-" +:+ replicate +:+ ".pkl".

(** ['*-'+replicate+'.pkl'] *)
Definition checkpoint_pattern : string := "*-" +:+ replicate +:+ ".pkl".

(** ['-'+replicate+'.pkl'] *)
Definition checkpoint_suffix : string := "-" +:+ replicate +:+ ".pkl".

(** [torch.save(model.state_dict(), '{}-'.format(epoch)+replicate+'.pkl')] *)
Definition torch_save (epoch : nat) (sd : SD) (fs : gmap string SD)
  : M (gmap string SD) :=
  match io_error (TorchSave (checkpoint_name epoch)) with
  | Some e => raise e
  | None => ret (<[checkpoint_name epoch := sd]> fs)
  end.

(** [glob.glob(pathname)] in the working directory, for a [pathname] with
    a wildcard and without a directory part: the names of the directory
    that [fnmatch] accepts, hidden files being left out unless the pattern
    itself starts with a dot. *)
Definition glob_glob (pathname : string) (fs : gmap string SD) : list string :=
  let names := (map_to_list fs).*1 in
  let names := if ishidden pathname then names
               else filter (λ name, ishidden name = false) names in
  filter (λ name, fnmatch name pathname = true) names.

(** [int(file.split('-'+replicate+'.pkl')[0])] *)
Definition epoch_nb (file : string) : option Z :=
  int (split_head checkpoint_suffix file).

(** The test of a removal loop, on a file name whose head [int] accepts. *)
Definition tested (test : Z → bool) (file : string) : bool :=
  match epoch_nb file with
  | Some nb => test nb
  | None => false
  end.

(** [for file in files: epoch_nb = int(...); if <test>: os.remove(file)] *)
Fixpoint remove_where (test : Z → bool) (names : list string)
    (fs : gmap string SD) (lg : list fs_event)
  : M (gmap string SD * list fs_event) :=
  match names with
  | [] => ret (fs, lg)
  | file :: rest =>
      match epoch_nb file with
      | None => raise ValueError
      | Some nb =>
          if test nb then
            match io_error (OsRemove file) with
            | Some e => raise e
            | None =>
                match fs !! file with
                | None => raise FileNotFoundError
                | Some _ => remove_where test rest (delete file fs)
                              (lg ++ [Removed file])
                end
            end
          else remove_where test rest fs lg
      end
  end.

(** [torch.load('{}-'.format(best_epoch)+replicate+'.pkl')] *)
Definition torch_load (epoch : nat) (fs : gmap string SD) : M SD :=
  match io_error (TorchLoad (checkpoint_name epoch)) with
  | Some e => raise e
  | None =>
      match fs !! checkpoint_name epoch with
      | Some sd => ret sd
      | None => raise FileNotFoundError
      end
  end.

(** [best = nEpochs + 1] *)
Definition initial_best : Qc := Q2Qc (inject_Z (Z.of_nat nEpochs + 1)).

Definition initial_state (ts0 : TS) (dir0 : gmap string SD) : run_state :=
  {| trainer := ts0; loss_values := []; bad_counter := 0;
     best := initial_best; best_epoch := 0; files := dir0; log := [] |}.

(** Lines 359 and 361, once both calls have returned: the loss is appended
    and the checkpoint of the epoch is in the directory. *)
Definition recorded (epoch : nat) (ts : TS) (loss : Qc) (fs : gmap string SD)
    (s : run_state) : run_state :=
  {| trainer := ts; loss_values := loss_values s ++ [loss];
     bad_counter := bad_counter s; best := best s;
     best_epoch := best_epoch s; files := fs;
     log := log s ++ [Wrote (checkpoint_name epoch)] |}.

(** Lines 362-367: [if loss_values[-1] < best: ... else: bad_counter += 1]. *)
Definition judge (epoch : nat) (s : run_state) : run_state :=
  match last (loss_values s) with
  | Some loss =>
      if decide (loss < best s)%Qc
      then {| trainer := trainer s; loss_values := loss_values s;
              bad_counter := 0; best := loss; best_epoch := epoch;
              files := files s; log := log s |}
      else {| trainer := trainer s; loss_values := loss_values s;
              bad_counter := S (bad_counter s); best := best s;
              best_epoch := best_epoch s; files := files s; log := log s |}
  | None => s
  end.

(** A removal loop over the listing of the directory (lines 372-376 with
    [epoch_nb < best_epoch], lines 378-382 with [epoch_nb > best_epoch]). *)
Definition remove_globbed (test : Z → bool) (s : run_state) : M run_state :=
  '(fs', lg') ← remove_where test (glob_glob checkpoint_pattern (files s))
                  (files s) (log s);
  ret {| trainer := trainer s; loss_values := loss_values s;
         bad_counter := bad_counter s; best := best s;
         best_epoch := best_epoch s; files := fs'; log := lg' |}.

(** Lines 372-376. *)
Definition remove_earlier (s : run_state) : M run_state :=
  remove_globbed (λ nb, (nb <? Z.of_nat (best_epoch s))%Z) s.

(** Lines 359-376: the body of [for epoch in range(nEpochs)].  The boolean
    tells whether [break] was executed. *)
Definition epoch_body (epoch : nat) (s : run_state) : M (run_state * bool) :=
  '(ts, loss) ← train epoch (trainer s);
  fs ← torch_save epoch (state_dict ts) (files s);
  let s1 := judge epoch (recorded epoch ts loss fs s) in
  if decide (bad_counter s1 = patience) then ret (s1, true)
  else s2 ← remove_earlier s1; ret (s2, false).

Fixpoint for_epochs (epochs : list nat) (s : run_state) : M (run_state * bool) :=
  match epochs with
  | [] => ret (s, false)
  | epoch :: rest =>
      match epoch_body epoch s with
      | inl e => inl e
      | inr (s', true) => ret (s', true)
      | inr (s', false) => for_epochs rest s'
      end
  end.

(** Lines 353-376. *)
Definition call_trainer (ts0 : TS) (dir0 : gmap string SD)
  : M (run_state * bool) :=
  for_epochs (seq 0 nEpochs) (initial_state ts0 dir0).

(** Lines 378-382. *)
Definition remove_later (s : run_state) : M run_state :=
  remove_globbed (λ nb, (Z.of_nat (best_epoch s) <? nb)%Z) s.

(** Line 389: the model after [load_state_dict]. *)
Definition restore_best (s : run_state) : M TS :=
  (sd ← torch_load (best_epoch s) (files s);
   ret (load_state_dict sd (trainer s))).

(** Lines 353-392: the final run state and the model handed to
    [compute_test]. *)
Definition script (ts0 : TS) (dir0 : gmap string SD) : M (run_state * TS) :=
  ('(s, _) ← call_trainer ts0 dir0;
   s' ← remove_later s;
   model ← restore_best s';
   _ ← compute_test model;
   ret (s', model)).

(** An exception that some dependency of the driver raised: [train], a
    file-system call, [int] on a file name, or [compute_test]. *)
Definition raised_by_dependency (x : exn) : Prop :=
  (∃ epoch ts, train epoch ts = inl x)
  ∨ (∃ c, io_error c = Some x)
  ∨ x = FileNotFoundError
  ∨ x = ValueError
  ∨ (∃ ts, compute_test ts = inl x).

(** The dependency call behind an event of the log returned normally. *)
Definition returned (ev : fs_event) : Prop :=
  match ev with
  | Wrote file => io_error (TorchSave file) = None
  | Removed file => io_error (OsRemove file) = None
  end.

End Driver.

(** A dependency that never raises. *)
Definition never_raises : io_call → option exn := λ _, None.
Definition total {A B C : Type} (f : A → B → C) : A → B → M C :=
  λ a b, ret (f a b).
Definition silent {A : Type} : A → M unit := λ _, ret ().

(** The files written to the directory, in order. *)
Definition writes (lg : list fs_event) : list string :=
  omap (λ ev, match ev with Wrote f => Some f | Removed _ => None end) lg.

(** *** The run as sequences indexed by the number of epochs done

    [train] does not read [best], [best_epoch] or [bad_counter], so the
    losses are those of the unbounded iteration of [train_ok]. *)
Section Run.

Context {TS SD : Type}.
Variable state_dict : TS → SD.
Variable load_state_dict : SD → TS → TS.
Variable train_ok : nat → TS → TS * Qc.
Variable fnmatch : string → string → bool.
Variable nEpochs patience : nat.
Variable replicate : string.
Variable ts0 : TS.
Variable dir0 : gmap string SD.

Fixpoint trainer_at (n : nat) : TS :=
  match n with
  | 0 => ts0
  | S k => (train_ok k (trainer_at k)).1
  end.

(** The loss returned by [train(n)]. *)
Definition loss_at (n : nat) : Qc := (train_ok n (trainer_at n)).2.

(** The state dict written at epoch [n]. *)
Definition checkpoint_at (n : nat) : SD := state_dict (trainer_at (S n)).

(** The lowest loss before epoch [n], capped by [nEpochs + 1]. *)
Fixpoint best_after (n : nat) : Qc :=
  match n with
  | 0 => initial_best nEpochs
  | S k => if decide (loss_at k < best_after k)%Qc then loss_at k
           else best_after k
  end.

(** Epoch [n] strictly improves on the best loss seen so far. *)
Definition improves (n : nat) : Prop := (loss_at n < best_after n)%Qc.

Fixpoint best_epoch_after (n : nat) : nat :=
  match n with
  | 0 => 0
  | S k => if decide (improves k) then k else best_epoch_after k
  end.

(** The number of consecutive non-improving epochs that end with epoch
    [n - 1]. *)
Fixpoint stale_run (n : nat) : nat :=
  match n with
  | 0 => 0
  | S k => if decide (improves k) then 0 else S (stale_run k)
  end.

(** The driver run with dependencies that do not raise. *)
Definition trained : M (run_state * bool) :=
  call_trainer state_dict (total train_ok) fnmatch never_raises nEpochs
    patience replicate ts0 dir0.

Definition finished : M (run_state * TS) :=
  script state_dict load_state_dict (total train_ok) silent fnmatch
    never_raises nEpochs patience replicate ts0 dir0.

(** [int] accepts the head of every name that the pattern lists in the
    directory. *)
Definition listing_parses (fs : gmap string SD) : Prop :=
  ∀ file, file ∈ glob_glob fnmatch (checkpoint_pattern replicate) fs →
          is_Some (epoch_nb replicate file).

(** Every name that the pattern lists in the directory is the name of a
    checkpoint of the replicate, as the script writes it. *)
Definition listing_canonical (fs : gmap string SD) : Prop :=
  ∀ file, file ∈ glob_glob fnmatch (checkpoint_pattern replicate) fs →
          ∃ k, file = checkpoint_name replicate k.

(** The pattern lists the checkpoints of the replicate. *)
Definition pattern_matches_checkpoints : Prop :=
  ∀ k, fnmatch (checkpoint_name replicate k) (checkpoint_pattern replicate)
       = true.

(** [i] is the first position of the lowest value of [lv]. *)
Definition is_first_argmin (lv : list Qc) (i : nat) : Prop :=
  ∃ x, lv !! i = Some x
       ∧ ∀ j y, lv !! j = Some y → (x ≤ y)%Qc ∧ (j < i → (x < y)%Qc).

(** The model handed to [compute_test] carries the state dict written at
    [best_epoch], and [best_epoch] is the first epoch with the lowest
    recorded loss. *)
Definition restores_lowest_loss : Prop :=
  ∃ s model,
    finished = inr (s, model)
    ∧ model = load_state_dict (checkpoint_at (best_epoch s)) (trainer s)
    ∧ is_first_argmin (loss_values s) (best_epoch s).

(** At most [nEpochs] epochs run, and fewer than [nEpochs] run exactly when
    some epoch of the range ends a run of [patience] stale epochs. *)
Definition stops_exactly_on_patience : Prop :=
  ∃ s brk,
    trained = inr (s, brk)
    ∧ length (loss_values s) ≤ nEpochs
    ∧ (length (loss_values s) < nEpochs
       ↔ ∃ n, 0 < n ≤ nEpochs ∧ stale_run n = patience).

(** The checkpoint discipline, with [s1] the state when the loop is left
    and [s] the state when the model is restored:
    - one file ['{epoch}-{replicate}.pkl'] is written per epoch, in order;
    - the loop removes only files whose epoch number is below [best_epoch],
      and leaves no checkpoint below [best_epoch] behind;
    - after the loop only files whose epoch number is above [best_epoch]
      are removed;
    - the file of [best_epoch] is never removed;
    - when the model is restored that file is there, and it is the only
      name that the pattern of the replicate lists. *)
Definition keeps_only_best_checkpoint : Prop :=
  ∃ s1 brk s model later,
    trained = inr (s1, brk)
    ∧ finished = inr (s, model)
    ∧ writes (log s1)
      = checkpoint_name replicate <$> seq 0 (length (loss_values s1))
    ∧ (∀ file, Removed file ∈ log s1 →
         ∃ nb, epoch_nb replicate file = Some nb
               ∧ (nb < Z.of_nat (best_epoch s1))%Z)
    ∧ (∀ k, k < best_epoch s1 → files s1 !! checkpoint_name replicate k = None)
    ∧ best_epoch s = best_epoch s1
    ∧ log s = log s1 ++ (Removed <$> later)
    ∧ (∀ file, file ∈ later →
         ∃ nb, epoch_nb replicate file = Some nb
               ∧ (Z.of_nat (best_epoch s) < nb)%Z)
    ∧ Removed (checkpoint_name replicate (best_epoch s)) ∉ log s
    ∧ files s !! checkpoint_name replicate (best_epoch s)
      = Some (checkpoint_at (best_epoch s))
    ∧ glob_glob fnmatch (checkpoint_pattern replicate) (files s)
      = [checkpoint_name replicate (best_epoch s)].

(** [s] is the driver state after [n] epochs. *)
Record tracks (n : nat) (s : @run_state TS SD) : Prop := {
  tracks_trainer : trainer s = trainer_at n;
  tracks_losses : loss_values s = loss_at <$> seq 0 n;
  tracks_bad : bad_counter s = stale_run n;
  tracks_best : best s = best_after n;
  tracks_best_epoch : best_epoch s = best_epoch_after n;
  tracks_writes : writes (log s) = checkpoint_name replicate <$> seq 0 n;
  tracks_removed :
    ∀ file, Removed file ∈ log s →
      ∃ nb, epoch_nb replicate file = Some nb
            ∧ (nb < Z.of_nat (best_epoch_after n))%Z
}.

(** The name is one that [glob] lists when the file exists. *)
Definition listed (file : string) : bool :=
  negb (FileNames.ishidden file) && fnmatch file (checkpoint_pattern replicate).

(** The directory after [n] epochs, once the listed checkpoints below [b]
    are removed: the checkpoints of epochs [b .. n-1] hold what was written,
    every file is one of the [n] checkpoints written or a file found at the
    start, and no listed checkpoint below [b] is left. *)
Record cleaned (b n : nat) (fs : gmap string SD) : Prop := {
  cleaned_kept :
    ∀ k, b ≤ k < n → fs !! checkpoint_name replicate k = Some (checkpoint_at k);
  cleaned_origin :
    ∀ file, is_Some (fs !! file) →
      (∃ k, file = checkpoint_name replicate k ∧ k < n)
      ∨ fs !! file = dir0 !! file;
  cleaned_removed :
    ∀ k, k < b → listed (checkpoint_name replicate k) = true →
         fs !! checkpoint_name replicate k = None
}.

End Run.

(** *** Concrete runs

    A trainer whose state is the number of epochs trained, whose state dict
    is that number, and whose losses are read off a list; replicate ["1"];
    [glob] with the matcher of the patterns ['*' + literal]. *)
Definition replay (losses : list Qc) : nat → nat → nat * Qc :=
  λ epoch ts, (S ts, nth epoch losses 0%Qc).

Definition replay_load : nat → nat → nat := λ sd _, sd.

Definition replay_trained (losses : list Qc) (nEpochs patience : nat)
    (dir0 : gmap string nat) : M (run_state * bool) :=
  trained id (replay losses) fnmatch_star_literal nEpochs patience "1" 0 dir0.

Definition replay_finished (losses : list Qc) (nEpochs patience : nat)
    (dir0 : gmap string nat) : M (run_state * nat) :=
  finished id replay_load (replay losses) fnmatch_star_literal nEpochs
    patience "1" 0 dir0.

(** Losses 5, 4 over two epochs: neither is below [nEpochs + 1 = 3]. *)
Definition losses_above_cap : list Qc := [Q2Qc 5; Q2Qc 4].

(** Losses 1, 1/2, 3/4 over three epochs: the last one is stale. *)
Definition losses_stale_last : list Qc := [Q2Qc 1; Q2Qc (1 # 2); Q2Qc (3 # 4)].

(** Losses 5, 1 over two epochs: only the second is below 3. *)
Definition losses_late_improvement : list Qc := [Q2Qc 5; Q2Qc 1].

(** Losses 2, 1, 3/2. *)
Definition losses_dip : list Qc := [Q2Qc 2; Q2Qc 1; Q2Qc (3 # 2)].

(** A directory that already holds a checkpoint of the replicate from an
    earlier run and a file of another kind. *)
Definition dir_with_old_checkpoint : gmap string nat :=
  {[ "7-1.pkl" := 70; "data.pkl" := 0 ]}.

(** A directory with a file that the pattern of the replicate lists and
    whose head is not a number. *)
Definition dir_with_stray_file : gmap string nat := {[ "best-1.pkl" := 0 ]}.

End Trainer.

(** ** The metrics (lines 42-62), in exact rational arithmetic

    A float tensor is a list of rationals.  A switch to [None] stands for a
    call that raises or for a float that is not a finite number (a division
    by zero). *)

Module Metrics.

Definition of_nat (k : nat) : Qc := Qc_of_Z (Z.of_nat k).

(** Division of floats. *)
Definition fdiv (x y : Qc) : option Qc :=
  if decide (y = 0%Qc) then None else Some (x / y)%Qc.

(** [torch.sum]. *)
Definition tsum (t : list Qc) : Qc := foldr Qcplus 0%Qc t.

(** [mask.type(torch.float)] and the implicit conversion of a boolean
    operand. *)
Definition as_float (b : bool) : Qc := if b then 1%Qc else 0%Qc.

(** The number of [True] entries: [mask.sum()] on a boolean tensor. *)
Definition count_true (mask : list bool) : nat :=
  length (filter (λ b, b = true) mask).

(** Element-wise binary operation on one-dimensional tensors, with
    broadcasting of a tensor of length 1. *)
Definition broadcast {A B C : Type} (f : A → B → C) (t1 : list A)
    (t2 : list B) : option (list C) :=
  if decide (length t1 = length t2) then Some (zip_with f t1 t2)
  else match t1, t2 with
       | [a], _ => Some (f a <$> t2)
       | _, [b] => Some ((λ a, f a b) <$> t1)
       | _, _ => None
       end.

(** In-place operation [t1 *= t2]: the result has the shape of [t1]. *)
Definition broadcast_inplace {A B : Type} (f : A → B → A) (t1 : list A)
    (t2 : list B) : option (list A) :=
  if decide (length t1 = length t2) then Some (zip_with f t1 t2)
  else match t2 with
       | [b] => Some ((λ a, f a b) <$> t1)
       | _ => None
       end.

(** The position of the first maximal entry after position [i - 1], given
    the best position and value so far. *)
Fixpoint argmax_from (i best_i : nat) (best_v : Qc) (row : list Qc) : nat :=
  match row with
  | [] => best_i
  | v :: row' =>
      if decide (best_v < v)%Qc then argmax_from (S i) i v row'
      else argmax_from (S i) best_i best_v row'
  end.

(** One row of [output.max(1)[1]]: the index of the first maximal value; the
    reduction of an empty row raises. *)
Definition argmax (row : list Qc) : option nat :=
  match row with
  | [] => None
  | v :: row' => Some (argmax_from 1 0 v row')
  end.

(** [preds.eq(labels).double()], with [preds] cast to the type of
    [labels]. *)
Definition eq_double (pred : nat) (label : Z) : Qc :=
  if decide (Z.of_nat pred = label) then 1%Qc else 0%Qc.

Definition correct_preds (output : list (list Qc)) (labels : list Z)
  : option (list Qc) :=
  preds ← mapM argmax output;
  broadcast eq_double preds labels.

(** Lines 42-46. *)
Definition accuracy (output : list (list Qc)) (labels : list Z) : option Qc :=
  correct ← correct_preds output labels;
  fdiv (tsum correct) (of_nat (length labels)).

(** Lines 56-62. *)
Definition masked_accuracy (output : list (list Qc)) (labels : list Z)
    (mask : list bool) : option Qc :=
  correct ← correct_preds output labels;
  correct ← broadcast_inplace Qcmult correct (as_float <$> mask);
  fdiv (tsum correct) (of_nat (count_true mask)).

(** One entry of [F.nll_loss(logits, labels, reduction='none')]: minus the
    log-probability of the label; 0 for the label -100 ([ignore_index]); a
    label outside the classes raises. *)
Definition nll_row (row : list Qc) (label : Z) : option Qc :=
  if decide (label = (-100)%Z) then Some 0%Qc
  else if decide (0 ≤ label)%Z then Qcopp <$> row !! Z.to_nat label
  else None.

Definition nll_loss (logits : list (list Qc)) (labels : list Z)
  : option (list Qc) :=
  if decide (length logits = length labels)
  then mapM (λ rl, nll_row rl.1 rl.2) (zip logits labels)
  else None.

(** Lines 49-54. *)
Definition masked_nll_loss (logits : list (list Qc)) (labels : list Z)
    (mask : list bool) : option Qc :=
  loss ← nll_loss logits labels;
  let mask := as_float <$> mask in
  ratio ← fdiv (tsum mask) (of_nat (length mask));
  mask ← mapM (λ m, fdiv m ratio) mask;
  loss ← broadcast_inplace Qcmult loss mask;
  fdiv (tsum loss) (of_nat (length loss)).

(** The sum of the entries of [loss] that [mask] selects. *)
Definition masked_sum (loss : list Qc) (mask : list bool) : Qc :=
  tsum (zip_with (λ l (b : bool), if b then l else 0%Qc) loss mask).

(** [i] is the position of the largest entry of [row], the first one when
    the largest value occurs more than once. *)
Definition first_max (row : list Qc) (i : nat) : Prop :=
  ∃ v, row !! i = Some v
       ∧ ∀ j w, row !! j = Some w → (w ≤ v)%Qc ∧ (j < i → (w < v)%Qc).

(** The same test as a boolean, entry by entry. *)
Definition is_first_max (row : list Qc) (i : nat) : bool :=
  match row !! i with
  | None => false
  | Some v =>
      forallb (λ jw : nat * Qc,
                 bool_decide (jw.2 ≤ v)%Qc
                 && (bool_decide (i ≤ jw.1) || bool_decide (jw.2 < v)%Qc))
        (imap pair row)
  end.

(** The number of rows whose largest entry sits at the label. *)
Definition hits (output : list (list Qc)) (labels : list Z) : nat :=
  length (filter (λ rl : list Qc * Z,
                    (0 ≤ rl.2)%Z ∧ is_first_max rl.1 (Z.to_nat rl.2) = true)
            (zip output labels)).

(** [masked_accuracy] under the all-ones mask and [accuracy] both return the
    hit rate: the number of rows whose largest entry sits at the label,
    divided by the number of rows. *)
Definition accuracy_is_hit_rate (output : list (list Qc)) (labels : list Z)
  : Prop :=
  ∃ q, masked_accuracy output labels (replicate (length labels) true) = Some q
       ∧ accuracy output labels = Some q
       ∧ q = (of_nat (hits output labels) / of_nat (length labels))%Qc.

(** *** Concrete tensors *)

Definition output3 : list (list Qc) :=
  [[Q2Qc (-1); Q2Qc (-2)]; [Q2Qc (-3); Q2Qc (-1 # 2)]; [Q2Qc (-2); Q2Qc (-2)]].

Definition labels3 : list Z := [0; 0; 1]%Z.

Definition mask3 : list bool := [true; false; true].

End Metrics.

(** ** The split masks (lines 242-250) *)

Module Masks.

Section Splits.

(** [sklearn.model_selection.train_test_split(arrays, test_size=...,
    random_state=42, stratify=...)]: a dependency; [None] when it raises. *)
Variable train_test_split :
  list nat → Qc → list Z → option (list nat * list nat).

(** [labels[idx]]. *)
Definition index_select (labels : list Z) (idx : list nat) : list Z :=
  omap (λ i, labels !! i) idx.

(** Lines 242-243: [(idx_train, idx_val, idx_test)]. *)
Definition splits (num_nodes : nat) (labels : list Z)
  : option (list nat * list nat * list nat) :=
  '(idx_train, idx_test) ←
    train_test_split (seq 0 num_nodes) (Q2Qc (2 # 10)) labels;
  '(idx_test, idx_val) ←
    train_test_split idx_test (Q2Qc (5 # 10)) (index_select labels idx_test);
  Some (idx_train, idx_val, idx_test).

(** Lines 244-246: [[1 if i in idx else 0 for i in range(num_nodes)]]. *)
Definition membership (num_nodes : nat) (idx : list nat) : list Z :=
  (λ i, if decide (i ∈ idx) then 1%Z else 0%Z) <$> seq 0 num_nodes.

(** Lines 248-250: [torch.tensor(mask, dtype=torch.bool)]. *)
Definition as_bool_tensor (t : list Z) : list bool :=
  (λ x, bool_decide (x ≠ 0%Z)) <$> t.

Definition mask_of (num_nodes : nat) (idx : list nat) : list bool :=
  as_bool_tensor (membership num_nodes idx).

(** Lines 242-250: [(train_mask, val_mask, test_mask)]. *)
Definition masks (num_nodes : nat) (labels : list Z)
  : option (list bool * list bool * list bool) :=
  '(idx_train, idx_val, idx_test) ← splits num_nodes labels;
  Some (mask_of num_nodes idx_train, mask_of num_nodes idx_val,
        mask_of num_nodes idx_test).

End Splits.

(** The three ways in which exactly one of three masks selects a node. *)
Definition one_of_three (a b c : bool) : Prop :=
  (a, b, c) ∈ [(true, false, false); (false, true, false);
               (false, false, true)].

(** A splitter that cuts the array behind its first
    [len - ceil(test_size * len)] entries. *)
Definition cut_split : list nat → Qc → list Z → option (list nat * list nat) :=
  λ arrays test_size _,
    let n_test := Z.to_nat (Qceiling (test_size * Qc_of_Z (Z.of_nat (length arrays)))%Qc) in
    let n_train := length arrays - n_test in
    Some (take n_train arrays, drop n_train arrays).

End Masks.

(** ** Cluster partitioning and batching (lines 73-228)

    [torch_sparse.SparseTensor], [torch_geometric.data.Data] and the dense
    tensors are dependencies; they are modelled by what the script uses of
    them.  [None] stands for a call that raises. *)

Module Cluster.

Section Graph.

(** [Row] is a row of a dense node-level tensor (a feature vector, a label,
    a mask bit); [V] is the value on an edge. *)
Context {Row V : Type}.

(** A sparse matrix: its sizes and its entries [(row, col, value)];
    [has_value] tells whether the tensor stores values at all.  The order in
    which the storage keeps the entries is not modelled. *)
Record SparseTensor : Type := {
  nrows : nat;
  ncols : nat;
  has_value : bool;
  entries : list (nat * nat * V)
}.

(** [adj.narrow(0, start, length)]: rows [start .. start+length-1],
    renumbered from 0. *)
Definition narrow0 (A : SparseTensor) (start len : nat)
  : option SparseTensor :=
  if decide (start + len ≤ nrows A) then
    Some {| nrows := len; ncols := ncols A; has_value := has_value A;
            entries :=
              (λ e, (e.1.1 - start, e.1.2, e.2))
                <$> filter (λ e, start ≤ e.1.1 < start + len) (entries A) |}
  else None.

(** [adj.narrow(1, start, length)]: a mask on the columns. *)
Definition narrow1 (A : SparseTensor) (start len : nat) : SparseTensor :=
  {| nrows := nrows A; ncols := len; has_value := has_value A;
     entries :=
       (λ e, (e.1.1, e.1.2 - start, e.2))
         <$> filter (λ e, start ≤ e.1.2 < start + len) (entries A) |}.

(** [adj.t()]. *)
Definition transpose (A : SparseTensor) : SparseTensor :=
  {| nrows := ncols A; ncols := nrows A; has_value := has_value A;
     entries := (λ e, (e.1.2, e.1.1, e.2)) <$> entries A |}.

(** The entries of [cat(tensors, dim=0)]: the rows of each tensor follow the
    rows of the tensors before it. *)
Fixpoint cat_entries (offset : nat) (tensors : list SparseTensor)
  : list (nat * nat * V) :=
  match tensors with
  | [] => []
  | A :: rest =>
      ((λ e, (offset + e.1.1, e.1.2, e.2)) <$> entries A)
        ++ cat_entries (offset + nrows A) rest
  end.

(** [torch_sparse.cat(tensors, dim=0)]; it asserts [len(tensors) > 0]. *)
Definition cat0 (tensors : list SparseTensor) : option SparseTensor :=
  match tensors with
  | [] => None
  | _ =>
      Some {| nrows := sum_list (nrows <$> tensors);
              ncols := max_list (ncols <$> tensors);
              has_value := forallb has_value tensors;
              entries := cat_entries 0 tensors |}
  end.

(** [row, col, value = adj.coo()]. *)
Definition coo_index (A : SparseTensor) : list (nat * nat) := (entries A).*1.
Definition coo_value (A : SparseTensor) : option (list V) :=
  if has_value A then Some (entries A).*2 else None.

(** An attribute of a data object. *)
Inductive item : Type :=
| Dense (rows : list Row)
| Sparse (A : SparseTensor).

(** [item.size(0)]. *)
Definition size0 (it : item) : nat :=
  match it with
  | Dense rows => length rows
  | Sparse A => nrows A
  end.

(** [item.narrow(0, start, length)]. *)
Definition narrow_item (start len : nat) (it : item) : option item :=
  match it with
  | Dense rows =>
      if decide (start + len ≤ length rows)
      then Some (Dense (take len (drop start rows))) else None
  | Sparse A => Sparse <$> narrow0 A start len
  end.

Definition as_sparse (it : item) : option SparseTensor :=
  match it with Sparse A => Some A | Dense _ => None end.

Definition as_dense (it : item) : option (list Row) :=
  match it with Dense rows => Some rows | Sparse _ => None end.

(** The attributes of a data object that are not [None], by key. *)
Abbreviation attrs := (gmap string item).

(** [data.num_nodes] of a data object without [__num_nodes__]: the size of
    the first of [x], [pos], [norm], [batch] that is set. *)
Definition num_nodes (data : attrs) : option nat :=
  size0 <$> head (omap (λ key, data !! key) ["x"; "pos"; "norm"; "batch"]).

(** A data object as [__getitem__] and [collate] return it. *)
Record Data : Type := {
  num_nodes_attr : option nat;
  store : attrs;
  edge_index : option (list (nat * nat));
  edge_attr : option (list V)
}.

(** What [process] leaves in a [ClusterData]: [self.data], where
    [edge_index] and [edge_attr] are [None] and [adj] is set
    (lines 116-118), and [self.partptr]. *)
Record ClusterData : Type := {
  data : attrs;
  partptr : list nat
}.

(** Lines 128-129. *)
Definition cluster_len (cd : ClusterData) : Z := Z.of_nat (length (partptr cd)) - 1.

(** Lines 133-134 and 181-182: [(start, length)] of a part; an index out of
    [partptr] raises, and so does a negative length once it reaches
    [narrow]. *)
Definition part_range (cd : ClusterData) (idx : nat) : option (nat * nat) :=
  start ← partptr cd !! idx;
  stop ← partptr cd !! (idx + 1);
  if decide (start ≤ stop) then Some (start, stop - start) else None.

(** Lines 140-141 and 187-188, for one attribute:
    [if item.size(0) == num_nodes: data[key] = item.narrow(0, start, length)]. *)
Definition narrowed (n : option nat) (start len : nat) (it : item) : item :=
  if decide (Some (size0 it) = n)
  then default it (narrow_item start len it) else it.

(** Lines 137-141 and 185-188: the loop over the attributes; it raises when
    one of its [narrow] calls does. *)
Definition narrow_nodes (start len : nat) (d : attrs) : option attrs :=
  let n := num_nodes d in
  if decide (map_Forall
               (λ _ it, Some (size0 it) = n →
                        is_Some (narrow_item start len it)) d)
  then Some (narrowed n start len <$> d)
  else None.

(** Lines 132-150: [ClusterData.__getitem__]. *)
Definition getitem (cd : ClusterData) (idx : nat) : option Data :=
  '(start, len) ← part_range cd idx;
  d ← narrow_nodes start len (data cd);
  adj ← d !! "adj" ≫= as_sparse;
  let adj := narrow1 adj start len in
  Some {| num_nodes_attr := None; store := delete "adj" d;
          edge_index := Some (coo_index adj); edge_attr := coo_value adj |}.

(** Lines 180-190: [HelperDataset.__getitem__]. *)
Definition helper_getitem (cd : ClusterData) (idx : nat)
  : option (attrs * nat) :=
  '(start, len) ← part_range cd idx;
  d ← narrow_nodes start len (data cd);
  Some (d, idx).

(** Lines 217-222, for one key of [ref]. *)
Definition collate_item (data_list : list attrs) (ref_adj : SparseTensor)
    (key : string) (it : item) : option item :=
  if decide (size0 it ≠ nrows ref_adj) then Some it
  else (λ rows, Dense (concat rows))
         <$> mapM (λ d : attrs, d !! key ≫= as_dense) data_list.

(** Lines 192-224: [collate]. *)
Definition collate (cd : ClusterData) (batch : list (attrs * nat))
  : option Data :=
  let data_list := batch.*1 in
  let parts := batch.*2 in
  adjs ← mapM (λ d : attrs, d !! "adj" ≫= as_sparse) data_list;
  adj ← cat0 adjs;
  let adj := transpose adj in
  adjs ← mapM (λ part, '(start, len) ← part_range cd part;
                       narrow0 adj start len) parts;
  adj ← transpose <$> cat0 adjs;
  ref ← head data_list;
  ref_adj ← ref !! "adj" ≫= as_sparse;
  kvs ← mapM (λ kv, pair kv.1 <$> collate_item data_list ref_adj kv.1 kv.2)
         (map_to_list (delete "adj" ref));
  Some {| num_nodes_attr := Some (nrows adj);
          store := list_to_map kvs;
          edge_index := Some (coo_index adj);
          edge_attr := coo_value adj |}.

(** The nodes of a batch, in the order of its parts. *)
Definition batch_nodes (cd : ClusterData) (parts : list nat) : list nat :=
  parts ≫= λ part, match part_range cd part with
                    | Some (start, len) => seq start len
                    | None => []
                    end.

(** [partptr] is monotone from 0 to [n]. *)
Definition monotone_to (n : nat) (ptr : list nat) : Prop :=
  head ptr = Some 0 ∧ last ptr = Some n
  ∧ ∀ i j a b, i ≤ j → ptr !! i = Some a → ptr !! j = Some b → a ≤ b.

(** Node [node] lies in the range of part [part]. *)
Definition in_part (ptr : list nat) (part node : nat) : Prop :=
  ∃ a b, ptr !! part = Some a ∧ ptr !! (part + 1) = Some b ∧ a ≤ node < b.

(** A cluster data object over [n] nodes whose adjacency is [A]: [x] (or the
    first of [pos], [norm], [batch]) has [n] rows, [adj] is the [n] by [n]
    matrix [A], and [partptr] is monotone from 0 to [n]. *)
Definition partitioned (n : nat) (A : SparseTensor) (cd : ClusterData)
  : Prop :=
  num_nodes (data cd) = Some n
  ∧ data cd !! "adj" = Some (Sparse A)
  ∧ nrows A = n ∧ ncols A = n
  ∧ monotone_to n (partptr cd).

(** Every attribute but [adj] is a dense tensor. *)
Definition dense_but_adj (cd : ClusterData) : Prop :=
  ∀ key it, data cd !! key = Some it → key ≠ "adj" → is_Some (as_dense it).

End Graph.

Arguments SparseTensor : clear implicits.
Arguments item : clear implicits.
Arguments Data : clear implicits.
Arguments ClusterData : clear implicits.

(** *** A concrete graph: six nodes on a ring, three parts of two nodes *)

Definition ring6 : SparseTensor unit :=
  {| nrows := 6; ncols := 6; has_value := false;
     entries := [(0, 1, ()); (1, 2, ()); (2, 3, ()); (3, 4, ()); (4, 5, ());
                 (5, 0, ())] |}.

Definition ring6_data : ClusterData nat unit :=
  {| data := {[ "x" := Dense [10; 11; 12; 13; 14; 15];
                "y" := Dense [0; 1; 0; 1; 0; 1];
                "adj" := Sparse ring6 ]};
     partptr := [0; 2; 4; 6] |}.

End Cluster.

(** * Facts *)

(** ** File names *)

Module FileNamesFacts.
Import FileNames.

Lemma all_digits_string_of_uint (d : uint) :
  all_digits (NilEmpty.string_of_uint d) = true.
Proof. induction d; cbn; auto. Qed.

Lemma str_digits (n : nat) : all_digits (str n) = true.
Proof. apply all_digits_string_of_uint. Qed.

Lemma str_inj (n m : nat) : str n = str m → n = m.
Proof.
  unfold str. intros H.
  apply (f_equal NilEmpty.uint_of_string) in H.
  rewrite !NilEmpty.usu in H. injection H as H.
  by apply Unsigned.to_uint_inj.
Qed.

Lemma str_nonempty (n : nat) : str n ≠ EmptyString.
Proof.
  unfold str. intros H.
  apply (f_equal NilEmpty.uint_of_string) in H.
  rewrite NilEmpty.usu in H. cbn in H. injection H as H.
  assert (n = 0) as ->; [by rewrite <- (Unsigned.of_to n), H|].
  discriminate H.
Qed.

Lemma digit_not_space (c : ascii) : is_digit c = true → is_space c = false.
Proof.
  unfold is_digit, is_space. cbn zeta. generalize (nat_of_ascii c).
  intros n H. apply andb_prop in H as [H1 H2]. apply Nat.leb_le in H1, H2.
  apply orb_false_intro; apply andb_false_iff; right; apply Nat.leb_gt; lia.
Qed.

Lemma is_digit_cases (c : ascii) :
  is_digit c = true →
  c ≠ "_"%char ∧ c ≠ "+"%char ∧ c ≠ "-"%char ∧ c ≠ "."%char.
Proof. intros H. split_and!; intros ->; discriminate. Qed.

Lemma rstrip_digits (s : string) : all_digits s = true → rstrip s = s.
Proof.
  induction s as [|c s IH]; cbn; [done|].
  intros [Hc Hs]%andb_prop. rewrite (IH Hs).
  destruct s; [|done]. by rewrite (digit_not_space _ Hc).
Qed.

Lemma strip_digits (s : string) : all_digits s = true → strip s = s.
Proof.
  intros H. unfold strip.
  assert (lstrip s = s) as ->; [|by apply rstrip_digits].
  destruct s as [|c s]; cbn in *; [done|].
  apply andb_prop in H as [Hc _]. by rewrite (digit_not_space _ Hc).
Qed.

Lemma digits_after_digit_all (s : string) :
  all_digits s = true → digits_after_digit s = Some s.
Proof.
  induction s as [|c s IH]; cbn [all_digits]; [done|].
  intros [Hc Hs]%andb_prop. specialize (IH Hs).
  assert (digits_after_digit (String c s)
          = if is_digit c then String c <$> digits_after_digit s else None)
    as ->.
  { destruct (is_digit_cases c Hc) as (Hu & _).
    cbn. destruct c as [[] [] [] [] [] [] [] []]; done. }
  by rewrite Hc, IH.
Qed.

(** [int] on a string of digits reads the number they write. *)
Lemma int_digits (s : string) :
  all_digits s = true → s ≠ EmptyString →
  int s = (d ← NilEmpty.uint_of_string s; Some (Z.of_nat (Nat.of_uint d))).
Proof.
  intros Hd Hne. unfold int. rewrite (strip_digits _ Hd).
  destruct s as [|c s]; [done|].
  cbn [all_digits] in Hd. apply andb_prop in Hd as [Hc Hs].
  destruct (is_digit_cases c Hc) as (_ & Hp & Hm & _).
  assert (match String c s with
          | String "+" rest => (false, rest)
          | String "-" rest => (true, rest)
          | _ => (false, String c s)
          end = (false, String c s)) as ->.
  { destruct c as [[] [] [] [] [] [] [] []]; done. }
  cbn [digits]. by rewrite Hc, (digits_after_digit_all _ Hs).
Qed.

(** [int('{}'.format(n)) == n] *)
Lemma int_str (n : nat) : int (str n) = Some (Z.of_nat n).
Proof.
  rewrite (int_digits _ (str_digits n) (str_nonempty n)).
  unfold str. rewrite NilEmpty.usu. cbn. by rewrite Unsigned.of_to.
Qed.

Lemma startswith_refl (s : string) : startswith s s = true.
Proof.
  unfold startswith. induction s as [|c s IH]; cbn; [done|].
  by destruct (ascii_dec c c).
Qed.

(** [(digits + '-' + rest).split('-' + rest)[0] == digits] *)
Lemma split_head_digits (s sep : string) :
  all_digits s = true →
  split_head (String "-" sep) (s +:+ String "-" sep) = s.
Proof.
  induction s as [|c s IH]; cbn [all_digits].
  - intros _. change (EmptyString +:+ ?x) with x.
    destruct sep; cbn [split_head]; by rewrite startswith_refl.
  - intros [Hc Hs]%andb_prop.
    destruct (is_digit_cases c Hc) as (_ & _ & Hm & _).
    change (String c s +:+ ?x) with (String c (s +:+ x)).
    cbn [split_head].
    assert (startswith (String c (s +:+ String "-" sep)) (String "-" sep)
            = false) as ->.
    { unfold startswith. cbn [String.prefix].
      by destruct (ascii_dec "-" c); [subst|]. }
    by rewrite (IH Hs).
Qed.

Lemma str_visible (n : nat) (rest : string) : ishidden (str n +:+ rest) = false.
Proof.
  pose proof (str_digits n) as Hd. pose proof (str_nonempty n) as Hne.
  destruct (str n) as [|c s]; [done|].
  cbn in Hd. apply andb_prop in Hd as [Hc _].
  destruct (is_digit_cases c Hc) as (_ & _ & _ & Hdot).
  unfold ishidden, startswith.
  change (String c s +:+ rest) with (String c (s +:+ rest)).
  cbn [String.prefix]. by destruct (ascii_dec "." c); [subst|].
Qed.

Lemma app_digits_inj (s1 s2 rest : string) :
  all_digits s1 = true → all_digits s2 = true →
  s1 +:+ String "-" rest = s2 +:+ String "-" rest → s1 = s2.
Proof.
  intros H1 H2 E.
  rewrite <- (split_head_digits s1 rest H1), <- (split_head_digits s2 rest H2).
  by rewrite E.
Qed.

Lemma endswith_app (s suffix : string) : endswith (s +:+ suffix) suffix = true.
Proof.
  induction s as [|c s IH].
  - change (EmptyString +:+ suffix) with suffix.
    destruct suffix; cbn [endswith]; by rewrite String.eqb_refl.
  - change (String c s +:+ suffix) with (String c (s +:+ suffix)).
    cbn [endswith]. rewrite IH. by destruct (String.eqb _ _).
Qed.

End FileNamesFacts.

(** ** The training driver *)

Module TrainerFacts.
Import FileNames FileNamesFacts Trainer.

Lemma writes_app (l1 l2 : list fs_event) :
  writes (l1 ++ l2) = writes l1 ++ writes l2.
Proof. unfold writes. apply omap_app. Qed.

Lemma writes_removed (names : list string) : writes (Removed <$> names) = [].
Proof. induction names as [|k names IH]; [done|]. exact IH. Qed.

(** A list without duplicates whose only possible member is [a]. *)
Lemma NoDup_only {A : Type} (l : list A) (a : A) :
  NoDup l → (∀ x, x ∈ l ↔ x = a) → l = [a].
Proof.
  intros Hnd Hl. destruct l as [|x [|y l]].
  - exfalso. by apply (not_elem_of_nil a), Hl.
  - f_equal. apply Hl. left.
  - exfalso. assert (x = a) as -> by (apply Hl; left).
    assert (y = a) as -> by (apply Hl; right; left).
    apply NoDup_cons in Hnd as [Hnd _]. apply Hnd. left.
Qed.

Section Names.
Context {SD : Type}.
Variable fnmatch : string → string → bool.
Variable replicate : string.

#[local] Abbreviation checkpoint_name := (checkpoint_name replicate).
#[local] Abbreviation checkpoint_pattern := (checkpoint_pattern replicate).
#[local] Abbreviation epoch_nb := (epoch_nb replicate).
#[local] Abbreviation listed := (listed fnmatch replicate).

Lemma checkpoint_name_inj (k1 k2 : nat) :
  checkpoint_name k1 = checkpoint_name k2 → k1 = k2.
Proof.
  intros H. apply str_inj.
  apply (app_digits_inj _ _ (replicate +:+ ".pkl")); [apply str_digits..|].
  exact H.
Qed.

(** The epoch number read back from a checkpoint name is the epoch it was
    written at. *)
Lemma epoch_nb_checkpoint_name (k : nat) :
  epoch_nb (checkpoint_name k) = Some (Z.of_nat k).
Proof.
  unfold Trainer.epoch_nb, Trainer.checkpoint_name, checkpoint_suffix.
  change ("-" +:+ replicate +:+ ".pkl") with (String "-" (replicate +:+ ".pkl")).
  rewrite (split_head_digits _ _ (str_digits k)). apply int_str.
Qed.

Lemma checkpoint_name_visible (k : nat) : ishidden (checkpoint_name k) = false.
Proof. apply str_visible. Qed.

Lemma elem_of_glob_glob (fs : gmap string SD) (file : string) :
  file ∈ glob_glob fnmatch checkpoint_pattern fs
  ↔ is_Some (fs !! file) ∧ listed file = true.
Proof.
  unfold glob_glob, Trainer.listed.
  change (ishidden checkpoint_pattern) with false. cbn iota.
  rewrite !list_elem_of_filter, list_elem_of_fmap, andb_true_iff,
    negb_true_iff.
  split.
  - intros (Hm & Hh & [k' sd] & -> & Hin).
    apply elem_of_map_to_list in Hin. split; [by exists sd|done].
  - intros ([sd Hsd] & Hh & Hm). split_and!; try done.
    exists (file, sd). split; [done|]. by apply elem_of_map_to_list.
Qed.

Lemma NoDup_glob_glob (fs : gmap string SD) :
  NoDup (glob_glob fnmatch checkpoint_pattern fs).
Proof.
  unfold glob_glob. apply NoDup_filter.
  destruct (ishidden _); [|apply NoDup_filter]; apply NoDup_fst_map_to_list.
Qed.

Section RemoveWhere.
Variable test : Z → bool.

#[local] Abbreviation tested := (tested replicate test).

(** Without failures the removal loop deletes the tested names, in the
    order of the listing. *)
Lemma remove_where_quiet (names : list string) (fs : gmap string SD)
    (lg : list fs_event) :
  NoDup names →
  (∀ file, file ∈ names → is_Some (fs !! file) ∧ is_Some (epoch_nb file)) →
  ∃ fs',
    remove_where never_raises replicate test names fs lg
      = inr (fs', lg ++ (Removed <$> filter (λ f, tested f = true) names))
    ∧ ∀ file, fs' !! file = if decide (file ∈ names ∧ tested file = true)
                            then None else fs !! file.
Proof.
  revert fs lg. induction names as [|n names IH]; intros fs lg Hnd Hnames;
    cbn [remove_where].
  - exists fs. split; [by rewrite filter_nil, app_nil_r|].
    intros k. case_decide as H; [|done]. destruct H as [H _]. inversion H.
  - apply NoDup_cons in Hnd as [Hn Hnd].
    destruct (Hnames n) as [[sd Hsd] [nb Hnb]]; [left|].
    rewrite Hnb. assert (tested n = test nb) as Htn.
    { unfold Trainer.tested. by rewrite Hnb. }
    destruct (test nb) eqn:Ht.
    + cbn [never_raises]. rewrite Hsd.
      destruct (IH (delete n fs) (lg ++ [Removed n])) as (fs' & -> & Hfs');
        [done| |].
      { intros f Hf. destruct (Hnames f) as [Hpresent Hparse]; [by right|].
        split; [|done]. rewrite lookup_delete_ne; [done|]. by intros ->. }
      exists fs'. split.
      * rewrite filter_cons_True by done. by rewrite fmap_cons, <- app_assoc.
      * intros k. rewrite Hfs'.
        destruct (decide (k ∈ names ∧ tested k = true)) as [[H1 H2]|H1];
          destruct (decide (k ∈ n :: names ∧ tested k = true)) as [[H3 H4]|H3];
          try done.
        -- exfalso. apply H3. split; [by right|done].
        -- apply elem_of_cons in H3 as [->|H3]; [apply lookup_delete_eq|].
           exfalso. by apply H1.
        -- apply lookup_delete_ne. intros ->. apply H3. split; [left|done].
    + destruct (IH fs lg) as (fs' & -> & Hfs'); [done| |].
      { intros f Hf. apply Hnames. by right. }
      exists fs'. split.
      * rewrite filter_cons_False; [done|]. by rewrite Htn.
      * intros k. rewrite Hfs'.
        destruct (decide (k ∈ names ∧ tested k = true)) as [[H1 H2]|H1];
          destruct (decide (k ∈ n :: names ∧ tested k = true)) as [[H3 H4]|H3];
          try done.
        -- exfalso. apply H3. split; [by right|done].
        -- apply elem_of_cons in H3 as [->|H3]; [congruence|].
           exfalso. by apply H1.
Qed.

(** Applied to the listing of the directory itself. *)
Lemma remove_globbed_quiet (fs : gmap string SD) (lg : list fs_event) :
  (∀ file, is_Some (fs !! file) → listed file = true →
           is_Some (epoch_nb file)) →
  ∃ fs' removed,
    remove_where never_raises replicate test
      (glob_glob fnmatch checkpoint_pattern fs) fs lg
      = inr (fs', lg ++ (Removed <$> removed))
    ∧ (∀ file, fs' !! file = if listed file && tested file then None
                             else fs !! file)
    ∧ (∀ file, file ∈ removed
               ↔ is_Some (fs !! file) ∧ listed file = true
                 ∧ tested file = true).
Proof.
  intros Hparse.
  destruct (remove_where_quiet (glob_glob fnmatch checkpoint_pattern fs) fs lg)
    as (fs' & Heq & Hfs').
  { apply NoDup_glob_glob. }
  { intros f [Hf Hl]%elem_of_glob_glob. split; [done|]. by apply Hparse. }
  exists fs', (filter (λ f, tested f = true)
                 (glob_glob fnmatch checkpoint_pattern fs)).
  split; [done|]. split.
  - intros f. rewrite Hfs'. case_decide as H.
    + destruct H as [[_ ->]%elem_of_glob_glob ->]. done.
    + destruct (listed f) eqn:Hl; [|done].
      destruct (tested f) eqn:Ht; [|done]. cbn.
      destruct (fs !! f) eqn:Hfs; [|done].
      exfalso. apply H. split; [|done]. apply elem_of_glob_glob.
      split; [by eexists|done].
  - intros f. rewrite list_elem_of_filter, elem_of_glob_glob. tauto.
Qed.
End RemoveWhere.

(** The tests of the two removal loops on a checkpoint name. *)
Lemma tested_earlier (b k : nat) :
  tested replicate (λ nb, (nb <? Z.of_nat b)%Z) (checkpoint_name k)
  = bool_decide (k < b).
Proof.
  unfold tested. rewrite epoch_nb_checkpoint_name.
  case_bool_decide; [apply Z.ltb_lt|apply Z.ltb_ge]; lia.
Qed.

Lemma tested_later (b k : nat) :
  tested replicate (λ nb, (Z.of_nat b <? nb)%Z) (checkpoint_name k)
  = bool_decide (b < k).
Proof.
  unfold tested. rewrite epoch_nb_checkpoint_name.
  case_bool_decide; [apply Z.ltb_lt|apply Z.ltb_ge]; lia.
Qed.

Lemma tested_Some (test : Z → bool) (file : string) :
  tested replicate test file = true →
  ∃ nb, epoch_nb file = Some nb ∧ test nb = true.
Proof.
  unfold tested. destruct (epoch_nb file) as [nb|]; [|done]. by exists nb.
Qed.

End Names.

Section RunFacts.
Context {TS SD : Type}.
Variable state_dict : TS → SD.
Variable load_state_dict : SD → TS → TS.
Variable train_ok : nat → TS → TS * Qc.
Variable fnmatch : string → string → bool.
Variable nEpochs patience : nat.
Variable replicate : string.
Variable ts0 : TS.
Variable dir0 : gmap string SD.

#[local] Abbreviation loss_at := (loss_at train_ok ts0).
#[local] Abbreviation best_after := (best_after train_ok nEpochs ts0).
#[local] Abbreviation improves := (improves train_ok nEpochs ts0).
#[local] Abbreviation best_epoch_after := (best_epoch_after train_ok nEpochs ts0).
#[local] Abbreviation stale_run := (stale_run train_ok nEpochs ts0).
#[local] Abbreviation checkpoint_at := (checkpoint_at state_dict train_ok ts0).
#[local] Abbreviation checkpoint_name := (checkpoint_name replicate).
#[local] Abbreviation epoch_nb := (epoch_nb replicate).
#[local] Abbreviation listed := (listed fnmatch replicate).
#[local] Abbreviation tested := (tested replicate).
#[local] Abbreviation tracks := (tracks train_ok nEpochs replicate ts0).
#[local] Abbreviation cleaned :=
  (cleaned state_dict train_ok fnmatch replicate ts0 dir0).
#[local] Abbreviation epoch_body :=
  (epoch_body state_dict (total train_ok) fnmatch never_raises patience
     replicate).
#[local] Abbreviation for_epochs :=
  (for_epochs state_dict (total train_ok) fnmatch never_raises patience
     replicate).
#[local] Abbreviation trained :=
  (trained state_dict train_ok fnmatch nEpochs patience replicate ts0 dir0).
#[local] Abbreviation finished :=
  (finished state_dict load_state_dict train_ok fnmatch nEpochs patience
     replicate ts0 dir0).

Lemma best_epoch_after_lt (n : nat) : best_epoch_after n ≤ pred n.
Proof.
  induction n as [|n IH]; [done|]. cbn [Trainer.best_epoch_after].
  case_decide; simpl; lia.
Qed.

Lemma best_epoch_after_mono (n : nat) :
  best_epoch_after n ≤ best_epoch_after (S n).
Proof.
  cbn [Trainer.best_epoch_after]. pose proof (best_epoch_after_lt n).
  case_decide; lia.
Qed.

(** A stale epoch leaves the best epoch where it was. *)
Lemma best_epoch_after_stale (n : nat) :
  stale_run (S n) ≠ 0 → best_epoch_after (S n) = best_epoch_after n.
Proof.
  cbn [Trainer.stale_run Trainer.best_epoch_after].
  by destruct (decide (improves n)).
Qed.

Lemma tracks_initial : tracks 0 (initial_state nEpochs ts0 dir0).
Proof. split; try done. intros k Hk. inversion Hk. Qed.

Lemma cleaned_initial : cleaned 0 0 dir0.
Proof. split; [intros; lia|by right|intros; lia]. Qed.

(** Lines 359-367 on a tracked state. *)
Lemma judge_tracks (n : nat) (s : @run_state TS SD) (fs : gmap string SD) :
  tracks n s →
  let s1 := judge n (recorded replicate n (train_ok n (trainer s)).1
                       (train_ok n (trainer s)).2 fs s) in
  tracks (S n) s1 ∧ files s1 = fs.
Proof.
  intros [Htr Hlv Hbad Hbest Hbe Hwr Hrm]. cbn zeta.
  pose proof (best_epoch_after_mono n) as Hmono. revert Hmono.
  unfold judge, recorded. cbn [loss_values best]. rewrite last_snoc.
  rewrite Htr, Hbest. fold (loss_at n).
  assert (Hseq : (loss_at <$> seq 0 n) ++ [loss_at n] = loss_at <$> seq 0 (S n)).
  { by rewrite seq_S, fmap_app. }
  assert (Hremoved : ∀ b file, best_epoch_after n ≤ b →
            Removed file ∈ log s ++ [Wrote (checkpoint_name n)] →
            ∃ nb, epoch_nb file = Some nb ∧ (nb < Z.of_nat b)%Z).
  { intros b file Hb Hk. apply elem_of_app in Hk as [Hk|Hk].
    - apply Hrm in Hk as (nb & Hnb & Hlt). exists nb. split; [done|lia].
    - by apply list_elem_of_singleton in Hk. }
  intros Hmono.
  split; [split|];
    cbn [Trainer.best_epoch_after Trainer.stale_run Trainer.best_after] in *;
    unfold Trainer.improves in *;
    destruct (decide (loss_at n < best_after n)%Qc) as [Hlt|Hge];
    cbn [trainer loss_values bad_counter best best_epoch files log];
    try done; try (by rewrite ?Hlv, ?Hbad);
    try (by rewrite writes_app, Hwr, seq_S, fmap_app);
    try (by intros k; apply Hremoved).
Qed.

(** A removal loop that meets no failure. *)
Lemma remove_globbed_ok (test : Z → bool) (s : @run_state TS SD) :
  (∀ file, is_Some (files s !! file) → listed file = true →
           is_Some (epoch_nb file)) →
  ∃ s' removed,
    remove_globbed fnmatch never_raises replicate test s = inr s'
    ∧ trainer s' = trainer s ∧ loss_values s' = loss_values s
    ∧ bad_counter s' = bad_counter s ∧ best s' = best s
    ∧ best_epoch s' = best_epoch s
    ∧ log s' = log s ++ (Removed <$> removed)
    ∧ (∀ file, files s' !! file = if listed file && tested test file then None
                                  else files s !! file)
    ∧ (∀ file, file ∈ removed
               ↔ is_Some (files s !! file) ∧ listed file = true
                 ∧ tested test file = true).
Proof.
  intros Hparse. unfold remove_globbed.
  destruct (remove_globbed_quiet fnmatch replicate test (files s) (log s) Hparse)
    as (fs' & removed & -> & Hfs' & Hrem).
  eexists _, removed. split; [reflexivity|]. cbn. done.
Qed.

Lemma cleaned_insert (b n : nat) (fs : gmap string SD) :
  b ≤ n → cleaned b n fs →
  cleaned b (S n) (<[checkpoint_name n := checkpoint_at n]> fs).
Proof.
  intros Hb [Hkept Horigin Hremoved]. split.
  - intros k Hk. destruct (decide (k = n)) as [->|Hne].
    + apply lookup_insert_eq.
    + rewrite lookup_insert_ne; [apply Hkept; lia|].
      intros H. by apply checkpoint_name_inj in H.
  - intros file. destruct (decide (file = checkpoint_name n)) as [->|Hne].
    + intros _. left. exists n. split; [done|lia].
    + rewrite lookup_insert_ne by done. intros Hfile.
      destruct (Horigin file Hfile) as [(k & -> & Hk)|Heq]; [|by right].
      left. exists k. split; [done|lia].
  - intros k Hk Hl. rewrite lookup_insert_ne; [by apply Hremoved|].
    intros H. apply checkpoint_name_inj in H. lia.
Qed.

Lemma cleaned_remove (b b' n : nat) (fs fs' : gmap string SD) :
  b ≤ b' → cleaned b n fs →
  (∀ file, fs' !! file
           = if listed file && tested (λ nb, (nb <? Z.of_nat b')%Z) file
             then None else fs !! file) →
  cleaned b' n fs'.
Proof.
  intros Hb [Hkept Horigin Hremoved] Hfs'. split.
  - intros k Hk. rewrite Hfs', tested_earlier.
    rewrite bool_decide_eq_false_2 by lia. rewrite andb_false_r.
    apply Hkept. lia.
  - intros file. rewrite Hfs'.
    destruct (listed file && tested _ file); [by intros [? ?]|].
    apply Horigin.
  - intros k Hk Hl. rewrite Hfs', tested_earlier, Hl.
    by rewrite bool_decide_eq_true_2 by lia.
Qed.

Section Parses.
Hypothesis dir0_parses : listing_parses fnmatch replicate dir0.

(** [int] accepts every name that a removal loop meets. *)
Lemma cleaned_parses (b n : nat) (fs : gmap string SD) :
  cleaned b n fs →
  ∀ file, is_Some (fs !! file) → listed file = true → is_Some (epoch_nb file).
Proof.
  intros [_ Horigin _] file Hfile Hl.
  destruct (Horigin file Hfile) as [(k & -> & _)|Heq].
  - rewrite epoch_nb_checkpoint_name. by eexists.
  - apply dir0_parses, elem_of_glob_glob. by rewrite <- Heq.
Qed.

(** One turn of the loop on a tracked state. *)
Lemma epoch_body_tracks (n : nat) (s : @run_state TS SD) :
  tracks n s →
  cleaned (best_epoch_after n) n (files s) →
  ∃ s', epoch_body n s = inr (s', bool_decide (stale_run (S n) = patience))
        ∧ tracks (S n) s'
        ∧ cleaned (if bool_decide (stale_run (S n) = patience)
                   then best_epoch_after n else best_epoch_after (S n))
            (S n) (files s').
Proof.
  intros Htr Hfs.
  pose proof (judge_tracks n s (<[checkpoint_name n := checkpoint_at n]> (files s))
                Htr) as [Htr1 Hfs1].
  pose proof (best_epoch_after_lt n) as Hlt.
  pose proof (best_epoch_after_lt (S n)) as Hlt'.
  pose proof (best_epoch_after_mono n) as Hmono.
  unfold Trainer.epoch_body, total, torch_save. cbn [never_raises].
  unfold ret, mret, M_ret, mbind, M_bind.
  destruct (train_ok n (trainer s)) as [ts loss] eqn:Etrain.
  assert (Hck : state_dict ts = checkpoint_at n).
  { unfold Trainer.checkpoint_at. cbn [Trainer.trainer_at].
    by rewrite <- (tracks_trainer _ _ _ _ _ _ Htr), Etrain. }
  rewrite Hck. cbn [fst snd] in Htr1, Hfs1.
  set (s1 := judge n (recorded replicate n ts loss
                        (<[checkpoint_name n := checkpoint_at n]> (files s)) s))
    in *.
  assert (cleaned (best_epoch_after n) (S n) (files s1)) as Hcl1.
  { rewrite Hfs1. apply cleaned_insert; [lia|done]. }
  rewrite (tracks_bad _ _ _ _ _ _ Htr1).
  destruct (decide (stale_run (S n) = patience)) as [Hstop|Hgo].
  - rewrite bool_decide_eq_true_2 by done. exists s1. by split.
  - rewrite bool_decide_eq_false_2 by done.
    destruct (remove_globbed_ok (λ nb, (nb <? Z.of_nat (best_epoch s1))%Z) s1)
      as (s2 & removed & Heq & H1 & H2 & H3 & H4 & H5 & H6 & H7 & H8).
    { by eapply cleaned_parses. }
    unfold remove_earlier. rewrite Heq. exists s2. split; [done|].
    destruct Htr1 as [T1 T2 T3 T4 T5 T6 T7]. split; [split|]; try congruence.
    + rewrite H6, writes_app, writes_removed, app_nil_r. done.
    + intros file Hk. rewrite H6 in Hk. apply elem_of_app in Hk as [Hk|Hk].
      * by apply T7.
      * apply list_elem_of_fmap in Hk as (k' & [= <-] & Hk').
        apply H8 in Hk' as (_ & _ & Hk').
        apply tested_Some in Hk' as (nb & Hnb & Hk'). exists nb.
        split; [done|]. apply Z.ltb_lt in Hk'. by rewrite <- T5.
    + apply (cleaned_remove (best_epoch_after n) _ _ (files s1)); [lia|done|].
      intros file. rewrite H7, T5. done.
Qed.

(** The loop from epoch [k] on, for [m] more epochs at most: it stops after
    the first epoch that brings [stale_run] to [patience]. *)
Lemma for_epochs_tracks (m : nat) :
  ∀ (k : nat) (s : @run_state TS SD),
    tracks k s →
    cleaned (best_epoch_after k) k (files s) →
    ∃ n s' brk,
      for_epochs (seq k m) s = inr (s', brk)
      ∧ k ≤ n ≤ k + m
      ∧ tracks n s'
      ∧ cleaned (if brk then best_epoch_after (pred n) else best_epoch_after n)
          n (files s')
      ∧ (∀ j, k < j < n → stale_run j ≠ patience)
      ∧ (if brk then k < n ∧ stale_run n = patience
         else n = k + m ∧ (k < n → stale_run n ≠ patience)).
Proof.
  induction m as [|m IH]; intros k s Htr Hfs.
  - exists k, s, false. cbn [seq Trainer.for_epochs].
    split_and!; try done; intros; lia.
  - cbn [seq Trainer.for_epochs].
    destruct (epoch_body_tracks k s Htr Hfs) as (s1 & -> & Htr1 & Hfs1).
    destruct (decide (stale_run (S k) = patience)) as [Hstop|Hgo].
    + rewrite bool_decide_eq_true_2 in * by done.
      exists (S k), s1, true. split_and!; try done; intros; lia.
    + rewrite bool_decide_eq_false_2 in * by done.
      destruct (IH (S k) s1 Htr1 Hfs1)
        as (n & s' & brk & -> & Hn & Htr' & Hfs' & Hbefore & Hend).
      exists n, s', brk. split_and!; try done; try lia.
      * intros j Hj. destruct (decide (j = S k)) as [->|?]; [done|].
        apply Hbefore. lia.
      * destruct brk; [destruct Hend; split; [lia|done]|].
        destruct Hend as [-> Hend]. split; [lia|]. intros _.
        destruct m as [|m]; [by rewrite Nat.add_0_r|]. apply Hend. lia.
Qed.

(** The whole loop. *)
Lemma trained_tracks :
  ∃ n s brk,
    trained = inr (s, brk)
    ∧ n ≤ nEpochs
    ∧ tracks n s
    ∧ cleaned (if brk then best_epoch_after (pred n) else best_epoch_after n)
        n (files s)
    ∧ (∀ j, 0 < j < n → stale_run j ≠ patience)
    ∧ (if brk then 0 < n ∧ stale_run n = patience
       else n = nEpochs ∧ (0 < n → stale_run n ≠ patience)).
Proof.
  destruct (for_epochs_tracks nEpochs 0 (initial_state nEpochs ts0 dir0))
    as (n & s & brk & Heq & Hn & Htr & Hfs & Hbefore & Hend).
  { apply tracks_initial. }
  { apply cleaned_initial. }
  exists n, s, brk. split_and!; try done; intros; lia.
Qed.

(** The run to its end, when at least one epoch is asked for: the state
    [s1] at the end of the loop, the state [s] after the last removal loop
    and the model that is restored. *)
Lemma finished_tracks :
  1 ≤ nEpochs →
  ∃ n s1 brk s later,
    trained = inr (s1, brk)
    ∧ finished
      = inr (s, load_state_dict (checkpoint_at (best_epoch_after n))
                  (trainer_at train_ok ts0 n))
    ∧ 0 < n ≤ nEpochs
    ∧ (brk = true → stale_run n = patience)
    ∧ tracks n s1
    ∧ cleaned (if brk then best_epoch_after (pred n) else best_epoch_after n)
        n (files s1)
    ∧ trainer s = trainer s1
    ∧ loss_values s = loss_values s1
    ∧ best_epoch s = best_epoch s1
    ∧ log s = log s1 ++ (Removed <$> later)
    ∧ (∀ file, file ∈ later
               ↔ is_Some (files s1 !! file) ∧ listed file = true
                 ∧ tested (λ nb, (Z.of_nat (best_epoch_after n) <? nb)%Z) file
                   = true)
    ∧ (∀ file, files s !! file
               = if listed file
                    && tested (λ nb, (Z.of_nat (best_epoch_after n) <? nb)%Z)
                         file
                 then None else files s1 !! file)
    ∧ files s !! checkpoint_name (best_epoch_after n)
      = Some (checkpoint_at (best_epoch_after n)).
Proof.
  intros Hpos.
  destruct trained_tracks
    as (n & s & brk & Heq & Hn & Htr & Hfs & Hbefore & Hend).
  assert (0 < n) as Hn0. { destruct brk; lia. }
  pose proof (best_epoch_after_lt n) as Hlt.
  pose proof (best_epoch_after_mono (pred n)) as Hmono.
  replace (S (pred n)) with n in Hmono by lia.
  destruct (remove_globbed_ok (λ nb, (Z.of_nat (best_epoch s) <? nb)%Z) s)
    as (s' & removed & Heq' & H1 & H2 & H3 & H4 & H5 & H6 & H7 & H8).
  { by eapply cleaned_parses. }
  pose proof Htr as [T1 T2 T3 T4 T5 T6 T7]. rewrite T5 in H7, H8.
  assert (files s' !! checkpoint_name (best_epoch_after n)
          = Some (checkpoint_at (best_epoch_after n))) as Hbest.
  { rewrite H7, tested_later, bool_decide_eq_false_2 by lia.
    rewrite andb_false_r. apply (cleaned_kept _ _ _ _ _ _ _ _ _ Hfs).
    destruct brk; lia. }
  exists n, s, brk, s', removed. split; [done|]. split.
  - unfold Trainer.finished, script. unfold Trainer.trained in Heq. rewrite Heq.
    unfold mbind at 1. unfold M_bind at 1. unfold remove_later.
    rewrite Heq'. unfold mbind at 1. unfold M_bind at 1.
    unfold restore_best, torch_load. cbn [never_raises].
    rewrite H5, T5, Hbest. cbn. by rewrite H1, T1.
  - split_and!; try done. intros ->. by destruct Hend.
Qed.

End Parses.

(** [best_after] and [best_epoch_after] in terms of the losses alone: either
    no loss so far is below the initial cap, or [best_epoch_after] is the
    first epoch with the lowest loss so far. *)
Lemma best_after_spec (n : nat) :
  (best_after n = initial_best nEpochs ∧ best_epoch_after n = 0
   ∧ ∀ j, j < n → ¬ (loss_at j < initial_best nEpochs)%Qc)
  ∨ (best_epoch_after n < n
     ∧ best_after n = loss_at (best_epoch_after n)
     ∧ (loss_at (best_epoch_after n) < initial_best nEpochs)%Qc
     ∧ (∀ j, j < n → (loss_at (best_epoch_after n) ≤ loss_at j)%Qc)
     ∧ (∀ j, j < best_epoch_after n →
             (loss_at (best_epoch_after n) < loss_at j)%Qc)).
Proof.
  induction n as [|n IH].
  - left. split_and!; try done. intros j Hj. lia.
  - cbn [Trainer.best_after Trainer.best_epoch_after]. unfold Trainer.improves.
    destruct (decide (loss_at n < best_after n)%Qc) as [Hlt|Hge].
    + right. destruct IH as [(Hb & _ & Hall)|(Hm & Hb & Hcap & Hmin & Hfirst)].
      * rewrite Hb in Hlt.
        assert (∀ j, j < n → (loss_at n < loss_at j)%Qc) as Hbelow.
        { intros j Hj. eapply Qclt_le_trans; [exact Hlt|].
          apply Qcnot_lt_le. by apply Hall. }
        split_and!; try done; try lia.
        intros j Hj. destruct (decide (j = n)) as [->|?]; [apply Qcle_refl|].
        apply Qclt_le_weak, Hbelow. lia.
      * rewrite Hb in Hlt.
        assert (∀ j, j < n → (loss_at n < loss_at j)%Qc) as Hbelow.
        { intros j Hj. eapply Qclt_le_trans; [exact Hlt|]. by apply Hmin. }
        split_and!; try done; try lia.
        -- by eapply Qclt_trans.
        -- intros j Hj. destruct (decide (j = n)) as [->|?]; [apply Qcle_refl|].
           apply Qclt_le_weak, Hbelow. lia.
    + apply Qcnot_lt_le in Hge.
      destruct IH as [(Hb & Hbe & Hall)|(Hm & Hb & Hcap & Hmin & Hfirst)].
      * left. split_and!; try done. intros j Hj.
        destruct (decide (j = n)) as [->|?]; [|apply Hall; lia].
        apply Qcle_not_lt. by rewrite <- Hb.
      * right. split_and!; try done; try lia.
        intros j Hj. destruct (decide (j = n)) as [->|?]; [|apply Hmin; lia].
        by rewrite <- Hb.
Qed.

(** [stale_run n = p] says that exactly the last [p] of the first [n]
    epochs failed to improve on the best loss. *)
Lemma stale_run_spec (n p : nat) :
  stale_run n = p
  ↔ p ≤ n
    ∧ (∀ k, n - p ≤ k < n → ¬ improves k)
    ∧ (p < n → improves (n - p - 1)).
Proof.
  revert p. induction n as [|n IH]; intros p.
  - cbn. split; [intros <-; split_and!; [done|intros; lia|lia]|lia].
  - cbn [Trainer.stale_run]. destruct (decide (improves n)) as [Himp|Hstale].
    + split.
      * intros <-. split_and!; [lia|intros; lia|].
        intros _. by replace (S n - 0 - 1) with n by lia.
      * intros (Hp & Hwin & _). destruct p as [|p]; [done|].
        exfalso. apply (Hwin n); [lia|done].
    + split.
      * intros <-. destruct (proj1 (IH (stale_run n)) eq_refl)
          as (Hle & Hwin & Hprev).
        split_and!; [lia| |].
        -- intros k Hk. destruct (decide (k = n)) as [->|?]; [done|].
           apply Hwin. lia.
        -- intros Hlt.
           replace (S n - S (stale_run n) - 1) with (n - stale_run n - 1)
             by lia.
           apply Hprev. lia.
      * intros (Hp & Hwin & Hprev). destruct p as [|p].
        -- exfalso. apply Hstale.
           replace n with (S n - 0 - 1) by lia. apply Hprev. lia.
        -- f_equal. apply IH. split_and!; [lia| |].
           ++ intros k Hk. apply Hwin. lia.
           ++ intros Hlt.
              replace (n - p - 1) with (S n - S p - 1) by lia.
              apply Hprev. lia.
Qed.

Lemma lookup_losses (n j : nat) (x : Qc) :
  (loss_at <$> seq 0 n) !! j = Some x ↔ j < n ∧ x = loss_at j.
Proof.
  rewrite list_lookup_fmap. split.
  - intros H. destruct (seq 0 n !! j) as [i|] eqn:Hi; [|done].
    apply lookup_seq in Hi as [-> Hj]. cbn in H. split; [done|congruence].
  - intros [Hj ->]. by rewrite (lookup_seq_lt _ _ _ Hj).
Qed.

Lemma tracks_length (n : nat) (s : @run_state TS SD) :
  tracks n s → length (loss_values s) = n.
Proof. intros [_ -> _ _ _ _ _]. by rewrite length_fmap, length_seq. Qed.

Lemma listing_canonical_parses :
  listing_canonical fnmatch replicate dir0 →
  listing_parses fnmatch replicate dir0.
Proof.
  intros Hcanon file Hfile. destruct (Hcanon file Hfile) as [k ->].
  rewrite epoch_nb_checkpoint_name. by eexists.
Qed.

(** C1 (as amended).  When at least one epoch is asked for, no dependency
    raises and [int] accepts the head of every name that the pattern of the
    replicate lists in the directory at the start, the script ends normally,
    the model handed to [compute_test] carries the state dict that was
    written at [best_epoch], and that file is in the directory.
    [best_epoch] is the first epoch with the lowest recorded loss as soon as
    some recorded loss is strictly below the initial best [nEpochs + 1];
    when none is, [best_epoch] keeps its initial value 0. *)
Theorem best_checkpoint_restored :
  1 ≤ nEpochs →
  listing_parses fnmatch replicate dir0 →
  ∃ s model,
    finished = inr (s, model)
    ∧ model = load_state_dict (checkpoint_at (best_epoch s)) (trainer s)
    ∧ files s !! checkpoint_name (best_epoch s)
      = Some (checkpoint_at (best_epoch s))
    ∧ loss_values s = loss_at <$> seq 0 (length (loss_values s))
    ∧ ((∃ j x, loss_values s !! j = Some x ∧ (x < initial_best nEpochs)%Qc)
       → is_first_argmin (loss_values s) (best_epoch s))
    ∧ ((∀ j x, loss_values s !! j = Some x → ¬ (x < initial_best nEpochs)%Qc)
       → best_epoch s = 0).
Proof.
  intros Hpos Hparse.
  destruct (finished_tracks Hparse Hpos)
    as (n & s1 & brk & s & later & _ & Heq & Hn & _ & Htr & _ & Ht & Hlv & Hbe
        & _ & _ & _ & Hbest).
  destruct Htr as [T1 T2 _ _ T5 _ _].
  eexists s, _. split; [exact Heq|]. rewrite Hbe, T5, Ht, T1, Hlv, T2.
  rewrite length_fmap, length_seq. split_and!; try done.
  - intros (j & x & Hj & Hx). apply lookup_losses in Hj as [Hj ->].
    destruct (best_after_spec n)
      as [(_ & _ & Hall)|(Hm & _ & _ & Hmin & Hfirst)].
    { exfalso. by apply (Hall j). }
    exists (loss_at (best_epoch_after n)). split.
    + by apply lookup_losses.
    + intros i y Hi. apply lookup_losses in Hi as [Hi ->]. split.
      * by apply Hmin.
      * apply Hfirst.
  - intros Hnone.
    destruct (best_after_spec n) as [(_ & H0 & _)|(Hm & _ & Hcap & _)];
      [done|].
    exfalso. eapply (Hnone (best_epoch_after n)); [|exact Hcap].
    by apply lookup_losses.
Qed.

(** C2 (as amended).  When no dependency raises and [int] accepts the head
    of every name that the pattern of the replicate lists in the directory
    at the start, the loop runs at most [nEpochs] epochs, on the losses that
    [train] returns in turn; it runs fewer than [nEpochs] epochs exactly
    when, after some epoch other than the last of the range, the number of
    consecutive epochs that failed to improve on the best loss
    ([stale_run], the value of [bad_counter]) equals [patience]. *)
Theorem early_stopping :
  listing_parses fnmatch replicate dir0 →
  ∃ s brk,
    trained = inr (s, brk)
    ∧ loss_values s = loss_at <$> seq 0 (length (loss_values s))
    ∧ bad_counter s = stale_run (length (loss_values s))
    ∧ length (loss_values s) ≤ nEpochs
    ∧ (length (loss_values s) < nEpochs
       ↔ ∃ n, 0 < n < nEpochs ∧ stale_run n = patience).
Proof.
  intros Hparse.
  destruct (trained_tracks Hparse)
    as (n & s & brk & Heq & Hn & Htr & _ & Hbefore & Hend).
  exists s, brk. rewrite (tracks_length _ _ Htr).
  split_and!; try done; try apply Htr. split.
  - intros Hlt. exists n. destruct brk; [|lia].
    destruct Hend as [H0 Hp]. split; [lia|done].
  - intros (j & Hj & Hp). destruct (decide (n < nEpochs)) as [|Hge]; [done|].
    exfalso. apply (Hbefore j); [lia|done].
Qed.

(** C5 (as amended).  When at least one epoch is asked for, [patience] is
    not 0, no dependency raises, the pattern ['*-'+replicate+'.pkl'] matches
    the checkpoint names of the replicate, and every name that it lists in
    the directory at the start is such a checkpoint name: one checkpoint
    ['{epoch}-{replicate}.pkl'] is written per epoch, in order; the loop
    removes only files whose epoch number is below [best_epoch] and leaves
    no checkpoint below [best_epoch]; after the loop only files whose epoch
    number is above [best_epoch] are removed; the file of [best_epoch] is
    never removed; and when the model is restored that file is there and is
    the only name that the pattern lists. *)
Theorem checkpoint_discipline :
  1 ≤ nEpochs → 1 ≤ patience →
  pattern_matches_checkpoints fnmatch replicate →
  listing_canonical fnmatch replicate dir0 →
  keeps_only_best_checkpoint state_dict load_state_dict train_ok fnmatch
    nEpochs patience replicate ts0 dir0.
Proof.
  intros Hpos Hpatience Hmatch Hcanon.
  destruct (finished_tracks (listing_canonical_parses Hcanon) Hpos)
    as (n & s1 & brk & s & later & Heq1 & Heq & Hn & Hbrk & Htr & Hcl & Ht
        & Hlv & Hbe & Hlog & Hlater & Hfs & Hbest).
  assert ((if brk then best_epoch_after (pred n) else best_epoch_after n)
          = best_epoch_after n) as Hb.
  { destruct brk; [|done]. specialize (Hbrk eq_refl).
    destruct n as [|n]; [lia|]. cbn [pred]. symmetry.
    apply best_epoch_after_stale. lia. }
  rewrite Hb in Hcl. destruct Hcl as [Hkept Horigin Hremoved].
  pose proof Htr as [T1 T2 T3 T4 T5 T6 T7].
  assert (∀ k, listed (checkpoint_name k) = true) as Hlisted.
  { intros k. unfold Trainer.listed. rewrite checkpoint_name_visible.
    apply Hmatch. }
  eexists s1, brk, s, _, later. split; [exact Heq1|]. split; [exact Heq|].
  rewrite Hbe, T5, T2, length_fmap, length_seq.
  split_and!; try done.
  - intros k Hk. by apply Hremoved.
  - intros file Hfile. apply Hlater in Hfile as (_ & _ & Htest).
    apply tested_Some in Htest as (nb & Hnb & Hlt). exists nb.
    split; [done|]. by apply Z.ltb_lt.
  - intros Hin. rewrite Hlog in Hin. apply elem_of_app in Hin as [Hin|Hin].
    + apply T7 in Hin as (nb & Hnb & Hlt).
      rewrite epoch_nb_checkpoint_name in Hnb. injection Hnb as <-. lia.
    + apply list_elem_of_fmap in Hin as (file & [= <-] & Hfile).
      apply Hlater in Hfile as (_ & _ & Htest).
      rewrite tested_later in Htest. apply bool_decide_eq_true in Htest. lia.
  - apply NoDup_only; [apply NoDup_glob_glob|]. intros file.
    rewrite elem_of_glob_glob. split.
    + intros [Hfile Hl]. rewrite Hfs, Hl in Hfile. cbn [andb] in Hfile.
      destruct (tested _ file) eqn:Htest; [by destruct Hfile|].
      assert (∃ k, file = checkpoint_name k) as [k ->].
      { destruct (Horigin file Hfile) as [(k & -> & _)|Heq0]; [by exists k|].
        apply Hcanon, elem_of_glob_glob. split; [by rewrite <- Heq0|done]. }
      rewrite tested_later in Htest. apply bool_decide_eq_false in Htest.
      destruct (decide (k < best_epoch_after n)) as [Hlt|Hge].
      { rewrite (Hremoved k Hlt Hl) in Hfile. by destruct Hfile. }
      f_equal. lia.
    + intros ->. rewrite Hbest. split; [by eexists|apply Hlisted].
Qed.

End RunFacts.

(** The matcher of the patterns ['*' + literal] accepts the checkpoint
    names of every replicate. *)
Lemma star_literal_matches (replicate : string) :
  pattern_matches_checkpoints fnmatch_star_literal replicate.
Proof.
  intros k. exact (endswith_app (str k) ("-" +:+ replicate +:+ ".pkl")).
Qed.

Lemma old_checkpoint_listing :
  glob_glob fnmatch_star_literal (checkpoint_pattern "1")
    dir_with_old_checkpoint = ["7-1.pkl"].
Proof. by vm_compute. Qed.

Lemma old_checkpoint_canonical :
  listing_canonical fnmatch_star_literal "1" dir_with_old_checkpoint.
Proof.
  intros file Hfile. rewrite old_checkpoint_listing in Hfile.
  apply list_elem_of_singleton in Hfile as ->. by exists 7.
Qed.

Lemma old_checkpoint_parses :
  listing_parses fnmatch_star_literal "1" dir_with_old_checkpoint.
Proof. apply listing_canonical_parses, old_checkpoint_canonical. Qed.

Lemma empty_directory_canonical {SD : Type} (fnmatch : string → string → bool)
    (replicate : string) :
  listing_canonical fnmatch replicate (∅ : gmap string SD).
Proof.
  intros file [[sd Hsd] _]%elem_of_glob_glob. by rewrite lookup_empty in Hsd.
Qed.

(** C1, counterexample.  Two epochs with losses 5 and 4, patience 5, an
    empty directory: no loss is below [nEpochs + 1 = 3], so [best_epoch]
    stays 0 and the model restored is the one of epoch 0, although epoch 1
    has the lowest loss. *)
Lemma restores_lowest_loss_fails :
  ¬ restores_lowest_loss id replay_load (replay losses_above_cap)
      fnmatch_star_literal 2 5 "1" 0 ∅.
Proof.
  intros (s & model & Heq & _ & x & Hx & Hmin).
  vm_compute in Heq. injection Heq as <- <-.
  cbn in Hx. injection Hx as <-.
  destruct (Hmin 1 (Q2Qc 4) eq_refl) as [Hle _].
  revert Hle. vm_compute. intros Hle. by apply Hle.
Qed.

(** The run of the counterexample, spelled out. *)
Lemma run_losses_above_cap :
  ∃ s, replay_finished losses_above_cap 2 5 ∅ = inr (s, 1)
       ∧ loss_values s = losses_above_cap
       ∧ best_epoch s = 0
       ∧ map_to_list (files s) = [("0-1.pkl", 1)].
Proof.
  eexists. split; [vm_compute; reflexivity|]. split_and!; try done.
Qed.

(** C1, witness: three epochs with losses 2, 1, 3/2 and patience 2, in a
    directory that holds an old checkpoint of the replicate. *)
Lemma best_checkpoint_restored_witness :
  1 ≤ 3
  ∧ listing_parses fnmatch_star_literal "1" dir_with_old_checkpoint
  ∧ ∃ s model,
      replay_finished losses_dip 3 2 dir_with_old_checkpoint = inr (s, model)
      ∧ model = 2 ∧ best_epoch s = 1
      ∧ files s !! "1-1.pkl" = Some 2
      ∧ is_first_argmin (loss_values s) 1.
Proof.
  split; [lia|]. split; [apply old_checkpoint_parses|].
  destruct (best_checkpoint_restored id replay_load (replay losses_dip)
              fnmatch_star_literal 3 2 "1" 0 dir_with_old_checkpoint)
    as (s & model & Heq & Hmodel & Hfile & _ & Hmin & _);
    [lia|apply old_checkpoint_parses|].
  exists s, model. split; [exact Heq|].
  vm_compute in Heq. injection Heq as <- <-.
  split_and!; [done|done|exact Hfile|]. apply Hmin.
  exists 1, (Q2Qc 1). split; [done|]. by vm_compute.
Defined.

(** C2, counterexample.  Three epochs with losses 1, 1/2, 3/4 and patience
    1: the third epoch is stale, [bad_counter] reaches [patience] and
    [break] runs, but all three epochs of the range have run. *)
Lemma stops_exactly_on_patience_fails :
  ¬ stops_exactly_on_patience id (replay losses_stale_last)
      fnmatch_star_literal 3 1 "1" 0 ∅.
Proof.
  intros (s & brk & Heq & _ & Hiff).
  vm_compute in Heq. injection Heq as <- <-.
  cbn [loss_values length] in Hiff.
  assert (3 < 3); [|lia]. apply Hiff. exists 3. split; [lia|].
  by vm_compute.
Qed.

(** C2, witness: five epochs asked for, losses 2, 1, 3/2, patience 1: the
    third epoch is stale and the loop stops after it. *)
Lemma early_stopping_witness :
  listing_parses fnmatch_star_literal "1" dir_with_old_checkpoint
  ∧ ∃ s brk,
      replay_trained losses_dip 5 1 dir_with_old_checkpoint = inr (s, brk)
      ∧ length (loss_values s) = 3 ∧ bad_counter s = 1 ∧ brk = true.
Proof.
  split; [apply old_checkpoint_parses|].
  destruct (early_stopping id (replay losses_dip) fnmatch_star_literal 5 1 "1"
              0 dir_with_old_checkpoint old_checkpoint_parses)
    as (s & brk & Heq & _).
  exists s, brk. split; [exact Heq|].
  vm_compute in Heq. by injection Heq as <- <-.
Defined.

(** C5, counterexample.  Two epochs with losses 5 and 1, patience 0: the
    second epoch improves, [bad_counter] is reset to 0 = [patience] and
    [break] skips the removal loop, so the checkpoint of epoch 0 stays
    beside the one of [best_epoch = 1]. *)
Lemma keeps_only_best_checkpoint_fails :
  ¬ keeps_only_best_checkpoint id replay_load (replay losses_late_improvement)
      fnmatch_star_literal 2 0 "1" 0 ∅.
Proof.
  intros (s1 & brk & s & model & later & Heq1 & _ & _ & _ & Hnone & _).
  vm_compute in Heq1. injection Heq1 as <- <-.
  specialize (Hnone 0 (Nat.lt_0_succ 0)).
  vm_compute in Hnone. discriminate.
Qed.

(** The run of that counterexample: both files are left. *)
Lemma run_losses_late_improvement :
  ∃ s, replay_finished losses_late_improvement 2 0 ∅ = inr (s, 2)
       ∧ best_epoch s = 1
       ∧ files s !! "0-1.pkl" = Some 1
       ∧ files s !! "1-1.pkl" = Some 2.
Proof.
  eexists. split; [vm_compute; reflexivity|]. split_and!; try done.
Qed.

(** With no epoch at all nothing is written and [torch.load] finds no file
    (the directory being empty at the start). *)
Lemma no_epoch_no_checkpoint (losses : list Qc) (patience : nat) :
  replay_finished losses 0 patience ∅ = inl FileNotFoundError.
Proof. reflexivity. Qed.

(** A file that the pattern lists and whose head is not a number makes the
    first removal loop raise [ValueError]. *)
Lemma stray_file_raises :
  ¬ listing_parses fnmatch_star_literal "1" dir_with_stray_file
  ∧ replay_finished losses_dip 3 2 dir_with_stray_file = inl ValueError.
Proof.
  split; [|by vm_compute].
  intros H. destruct (H "best-1.pkl") as [nb Hnb]; [|by vm_compute in Hnb].
  assert (glob_glob fnmatch_star_literal (checkpoint_pattern "1")
            dir_with_stray_file = ["best-1.pkl"]) as -> by by vm_compute.
  left.
Qed.

(** C5, witness: three epochs with losses 2, 1, 3/2 and patience 2, in a
    directory that holds an old checkpoint of the replicate. *)
Lemma checkpoint_discipline_witness :
  1 ≤ 3 ∧ 1 ≤ 2
  ∧ pattern_matches_checkpoints fnmatch_star_literal "1"
  ∧ listing_canonical fnmatch_star_literal "1" dir_with_old_checkpoint
  ∧ keeps_only_best_checkpoint id replay_load (replay losses_dip)
      fnmatch_star_literal 3 2 "1" 0 dir_with_old_checkpoint.
Proof.
  split; [lia|]. split; [lia|].
  split; [apply star_literal_matches|].
  split; [apply old_checkpoint_canonical|].
  apply (checkpoint_discipline id replay_load (replay losses_dip)
           fnmatch_star_literal 3 2 "1" 0 dir_with_old_checkpoint);
    [lia|lia|apply star_literal_matches|apply old_checkpoint_canonical].
Defined.

(** Reduces a sequence whose first statement is known. *)
Ltac bind_step :=
  unfold mbind, M_bind, ret, mret, M_ret in *; cbn beta iota in *.

Section Failures.
Context {TS SD : Type}.
Variable state_dict : TS → SD.
Variable load_state_dict : SD → TS → TS.
Variable train : nat → TS → M (TS * Qc).
Variable compute_test : TS → M unit.
Variable fnmatch : string → string → bool.
Variable io_error : io_call → option exn.
Variable nEpochs patience : nat.
Variable replicate : string.

#[local] Abbreviation raised := (raised_by_dependency train compute_test io_error).
#[local] Abbreviation returned := (returned io_error).
#[local] Abbreviation remove_where := (remove_where io_error replicate).
#[local] Abbreviation remove_globbed :=
  (remove_globbed fnmatch io_error replicate).
#[local] Abbreviation epoch_body :=
  (epoch_body state_dict train fnmatch io_error patience replicate).
#[local] Abbreviation for_epochs :=
  (for_epochs state_dict train fnmatch io_error patience replicate).
#[local] Abbreviation script :=
  (script state_dict load_state_dict train compute_test fnmatch io_error
     nEpochs patience replicate).

Lemma remove_where_raises (test : Z → bool) (names : list string)
    (fs : gmap string SD) (lg : list fs_event) (x : exn) :
  remove_where test names fs lg = inl x →
  (∃ file, io_error (OsRemove file) = Some x)
  ∨ x = ValueError ∨ x = FileNotFoundError.
Proof.
  revert fs lg. induction names as [|file names IH]; intros fs lg; [done|].
  cbn [Trainer.remove_where].
  destruct (epoch_nb replicate file) as [nb|];
    [|intros [= <-]; right; by left].
  destruct (test nb); [|apply IH].
  destruct (io_error (OsRemove file)) as [e|] eqn:He.
  { intros [= ->]. left. by exists file. }
  destruct (fs !! file); [apply IH|].
  intros [= <-]. right. by right.
Qed.

Lemma remove_where_returns (test : Z → bool) (names : list string)
    (fs fs' : gmap string SD) (lg lg' : list fs_event) :
  remove_where test names fs lg = inr (fs', lg') →
  Forall returned lg → Forall returned lg'.
Proof.
  revert fs lg. induction names as [|file names IH]; intros fs lg.
  - by intros [= _ <-].
  - cbn [Trainer.remove_where].
    destruct (epoch_nb replicate file) as [nb|]; [|done].
    destruct (test nb); [|apply IH].
    destruct (io_error (OsRemove file)) as [e|] eqn:He; [done|].
    destruct (fs !! file); [|done].
    intros Hrun Hlg. eapply IH; [exact Hrun|].
    apply Forall_app. split; [done|]. by apply Forall_singleton.
Qed.

Lemma remove_globbed_raises (test : Z → bool) (s : @run_state TS SD)
    (x : exn) :
  remove_globbed test s = inl x → raised x.
Proof.
  unfold Trainer.remove_globbed.
  destruct (remove_where _ _ _ _) as [e|[fs' lg']] eqn:Hrm; bind_step;
    [|done].
  intros [= ->]. apply remove_where_raises in Hrm as [[file Hk]|[->| ->]].
  - right. left. by eexists.
  - right. right. right. by left.
  - right. right. by left.
Qed.

Lemma remove_globbed_returns (test : Z → bool) (s s' : @run_state TS SD) :
  remove_globbed test s = inr s' →
  Forall returned (log s) → Forall returned (log s').
Proof.
  unfold Trainer.remove_globbed.
  destruct (remove_where _ _ _ _) as [e|[fs' lg']] eqn:Hrm; bind_step;
    [done|].
  intros [= <-]. cbn. by eapply remove_where_returns.
Qed.

Lemma judge_log (epoch : nat) (s : @run_state TS SD) :
  log (judge epoch s) = log s.
Proof. unfold judge. destruct (last _); [|done]. by case_decide. Qed.

Lemma epoch_body_raises (epoch : nat) (s : @run_state TS SD) (x : exn) :
  epoch_body epoch s = inl x → raised x.
Proof.
  unfold Trainer.epoch_body, torch_save.
  destruct (train epoch (trainer s)) as [e|[ts loss]] eqn:Htrain.
  { intros [= ->]. left. by exists epoch, (trainer s). }
  cbn. destruct (io_error (TorchSave _)) as [e|] eqn:Hsave.
  { intros [= ->]. right. left. by eexists. }
  cbn. case_decide; [done|]. unfold remove_earlier.
  destruct (remove_globbed _ _) as [e|s2] eqn:Hrm; [|done].
  intros [= ->]. by eapply remove_globbed_raises.
Qed.

Lemma epoch_body_returns (epoch : nat) (s s' : @run_state TS SD) (brk : bool) :
  epoch_body epoch s = inr (s', brk) →
  Forall returned (log s) → Forall returned (log s').
Proof.
  unfold Trainer.epoch_body, torch_save.
  destruct (train epoch (trainer s)) as [e|[ts loss]] eqn:Htrain; [done|].
  cbn. destruct (io_error (TorchSave _)) as [e|] eqn:Hsave; [done|].
  cbn. intros Hrun Hlg.
  assert (Forall returned
            (log (judge epoch
                    (recorded replicate epoch ts loss
                       (<[checkpoint_name replicate epoch:=state_dict ts]>
                          (files s)) s)))) as Hlg1.
  { rewrite judge_log. cbn. apply Forall_app. split; [done|].
    by apply Forall_singleton. }
  case_decide; [by injection Hrun as <- <-|].
  unfold remove_earlier in Hrun.
  destruct (remove_globbed _ _) as [e|s2] eqn:Hrm; [done|].
  injection Hrun as <- <-. by eapply remove_globbed_returns.
Qed.

Lemma for_epochs_raises (epochs : list nat) (s : @run_state TS SD) (x : exn) :
  for_epochs epochs s = inl x → raised x.
Proof.
  revert s. induction epochs as [|epoch rest IH]; intros s; [done|].
  cbn [Trainer.for_epochs].
  destruct (epoch_body epoch s) as [e|[s' [|]]] eqn:Hbody; [|done|apply IH].
  intros [= ->]. by eapply epoch_body_raises.
Qed.

Lemma for_epochs_returns (epochs : list nat) (s s' : @run_state TS SD)
    (brk : bool) :
  for_epochs epochs s = inr (s', brk) →
  Forall returned (log s) → Forall returned (log s').
Proof.
  revert s. induction epochs as [|epoch rest IH]; intros s.
  - by intros [= <- <-].
  - cbn [Trainer.for_epochs].
    destruct (epoch_body epoch s) as [e|[s1 [|]]] eqn:Hbody; [done| |].
    + intros [= <- <-]. by eapply epoch_body_returns.
    + intros Hrun Hlg. eapply IH; [exact Hrun|]. by eapply epoch_body_returns.
Qed.

(** Whatever the dependencies do: an exception that leaves the script is one
    that a dependency raised; a script that ends normally met no failing
    call; and an exception in a turn of the loop ends the loop with that
    exception. *)
Lemma driver_propagates (ts0 : TS) (dir0 : gmap string SD) :
  (∀ x, script ts0 dir0 = inl x → raised x)
  ∧ (∀ s model, script ts0 dir0 = inr (s, model) →
       Forall returned (log s)
       ∧ io_error (TorchLoad (checkpoint_name replicate (best_epoch s))) = None
       ∧ compute_test model = inr ())
  ∧ (∀ epoch rest s x,
       epoch_body epoch s = inl x → for_epochs (epoch :: rest) s = inl x).
Proof.
  split_and!.
  - intros x. unfold Trainer.script, call_trainer.
    destruct (for_epochs _ _) as [e|[s brk]] eqn:Hloop.
    { intros [= ->]. by eapply for_epochs_raises. }
    cbn. unfold remove_later.
    destruct (remove_globbed _ _) as [e|s'] eqn:Hrm.
    { intros [= ->]. by eapply remove_globbed_raises. }
    cbn. unfold restore_best, torch_load.
    destruct (io_error (TorchLoad _)) as [e|] eqn:Hload.
    { intros [= ->]. right. left. by eexists. }
    destruct (files s' !! _) as [sd|].
    2:{ intros [= <-]. right. right. by left. }
    cbn. destruct (compute_test _) as [e|[]] eqn:Htest; [|done].
    intros [= ->]. right. right. right. right. by eexists.
  - intros s model. unfold Trainer.script, call_trainer.
    destruct (for_epochs _ _) as [e|[s1 brk]] eqn:Hloop; [done|].
    cbn. unfold remove_later.
    destruct (remove_globbed _ _) as [e|s'] eqn:Hrm; [done|].
    cbn. unfold restore_best, torch_load.
    destruct (io_error (TorchLoad _)) as [e|] eqn:Hload; [done|].
    destruct (files s' !! _) as [sd|]; [|done].
    cbn. destruct (compute_test _) as [e|[]] eqn:Htest; [done|].
    intros [= <- <-]. split_and!; try done.
    eapply remove_globbed_returns; [exact Hrm|].
    eapply for_epochs_returns; [exact Hloop|]. constructor.
  - intros epoch rest s x Hbody. cbn [Trainer.for_epochs]. by rewrite Hbody.
Qed.

End Failures.

End TrainerFacts.

(** ** The metrics *)

Module MetricsFacts.
Import Metrics.

Lemma of_nat_S (n : nat) : of_nat (S n) = (1 + of_nat n)%Qc.
Proof.
  unfold of_nat. rewrite Nat2Z.inj_succ, <- Z.add_1_l, Z2Qc_inj_add.
  by rewrite Z2Qc_inj_1.
Qed.

Lemma of_nat_eq_0 (n : nat) : of_nat n = 0%Qc ↔ n = 0.
Proof.
  unfold of_nat. rewrite <- Z2Qc_inj_0, Z2Qc_inj_iff. lia.
Qed.

Lemma fdiv_Some (x y : Qc) : y ≠ 0%Qc → fdiv x y = Some (x / y)%Qc.
Proof. intros Hy. unfold fdiv. by rewrite decide_False. Qed.

Lemma tsum_as_float (mask : list bool) :
  tsum (as_float <$> mask) = of_nat (count_true mask).
Proof.
  induction mask as [|b mask IH]; [symmetry; apply Z2Qc_inj_0|].
  rewrite fmap_cons.
  change (tsum (as_float b :: (as_float <$> mask)))
    with (as_float b + tsum (as_float <$> mask))%Qc.
  rewrite IH. unfold count_true. destruct b.
  - rewrite filter_cons_True by done. cbn [length]. by rewrite of_nat_S.
  - rewrite filter_cons_False by done. apply Qcplus_0_l.
Qed.

Lemma count_true_le (mask : list bool) : count_true mask ≤ length mask.
Proof. apply length_filter. Qed.

Lemma count_true_replicate (n : nat) : count_true (replicate n true) = n.
Proof.
  unfold count_true. induction n as [|n IH]; [done|]. cbn [replicate].
  rewrite filter_cons_True by done. cbn. by rewrite IH.
Qed.

Lemma tsum_cons (x : Qc) (t : list Qc) : tsum (x :: t) = (x + tsum t)%Qc.
Proof. reflexivity. Qed.

Lemma tsum_scaled (r : Qc) (loss mask : list Qc) :
  tsum (zip_with Qcmult loss ((λ m, m / r)%Qc <$> mask))
  = (tsum (zip_with Qcmult loss mask) / r)%Qc.
Proof.
  revert mask. induction loss as [|l loss IH]; intros [|m mask];
    cbn [fmap list_fmap zip_with]; rewrite ?tsum_cons, ?IH;
    unfold Qcdiv; cbn [tsum foldr]; ring.
Qed.

Lemma tsum_masked (loss : list Qc) (mask : list bool) :
  tsum (zip_with Qcmult loss (as_float <$> mask)) = masked_sum loss mask.
Proof.
  unfold masked_sum. revert mask.
  induction loss as [|l loss IH]; intros [|b mask];
    cbn [fmap list_fmap zip_with]; try done.
  rewrite !tsum_cons, IH. destruct b; cbn [as_float]; ring.
Qed.

Lemma mapM_fdiv (r : Qc) (mask : list Qc) :
  r ≠ 0%Qc →
  mapM (λ m, fdiv m r) mask = Some ((λ m, m / r)%Qc <$> mask).
Proof.
  intros Hr. apply mapM_Some. apply Forall2_fmap_r, Forall_Forall2_diag.
  apply Forall_forall. intros m _. by apply fdiv_Some.
Qed.

(** C9.  In exact arithmetic, when [F.nll_loss] returns the per-node losses
    [loss], the mask has the length of the labels and selects at least one
    node, [masked_nll_loss] returns the sum of the selected losses divided by
    the number of selected nodes. *)
Theorem masked_nll_loss_masked_mean (logits : list (list Qc))
    (labels : list Z) (mask : list bool) (loss : list Qc) :
  nll_loss logits labels = Some loss →
  length mask = length labels →
  0 < count_true mask →
  masked_nll_loss logits labels mask
  = Some (masked_sum loss mask / of_nat (count_true mask))%Qc.
Proof.
  intros Hnll Hlen Hpos. unfold masked_nll_loss. rewrite Hnll. cbn.
  assert (length loss = length mask) as Hloss.
  { unfold nll_loss in Hnll. case_decide as Hll; [|done].
    apply length_mapM in Hnll. rewrite length_zip in Hnll. lia. }
  pose proof (count_true_le mask) as Hle.
  assert (of_nat (count_true mask) ≠ 0%Qc) as Hc.
  { rewrite of_nat_eq_0. lia. }
  assert (of_nat (length mask) ≠ 0%Qc) as Hn.
  { rewrite of_nat_eq_0. lia. }
  rewrite tsum_as_float, length_fmap. rewrite fdiv_Some by done. cbn.
  assert (of_nat (count_true mask) / of_nat (length mask) ≠ 0)%Qc as Hr.
  { intros H. apply Qcmult_integral in H as [H|H]; [done|].
    pose proof (Qcmult_inv_r _ Hn) as H1. rewrite H, Qcmult_0_r in H1.
    by apply Q_apart_0_1. }
  rewrite mapM_fdiv by done. cbn.
  unfold broadcast_inplace. rewrite decide_True by by rewrite !length_fmap.
  cbn. rewrite length_zip_with, !length_fmap, Hloss, Nat.min_id.
  rewrite fdiv_Some by done. f_equal.
  rewrite tsum_scaled, tsum_masked. field. done.
Qed.

(** C9, witness: three nodes with losses 1, 3, 2 of which the first and the
    last are selected; the masked mean is 3/2. *)
Lemma masked_nll_loss_masked_mean_witness :
  nll_loss output3 labels3 = Some [Q2Qc 1; Q2Qc 3; Q2Qc 2]
  ∧ length mask3 = length labels3
  ∧ 0 < count_true mask3
  ∧ masked_nll_loss output3 labels3 mask3 = Some (Q2Qc (3 # 2)).
Proof.
  assert (nll_loss output3 labels3 = Some [Q2Qc 1; Q2Qc 3; Q2Qc 2]) as Hnll.
  { by vm_compute. }
  assert (0 < count_true mask3) as Hpos. { vm_compute. lia. }
  split_and!; [exact Hnll|reflexivity|exact Hpos|].
  rewrite (masked_nll_loss_masked_mean output3 labels3 mask3 _ Hnll eq_refl Hpos).
  reflexivity.
Defined.

(** [argmax_from] continues a scan: given the first maximal position of a
    prefix, it returns the first maximal position of the whole row. *)
Lemma argmax_from_spec (row pre : list Qc) (best_i : nat) (best_v : Qc) :
  pre !! best_i = Some best_v →
  (∀ j w, pre !! j = Some w → (w ≤ best_v)%Qc ∧ (j < best_i → (w < best_v)%Qc)) →
  ∃ v, (pre ++ row) !! argmax_from (length pre) best_i best_v row = Some v
       ∧ ∀ j w, (pre ++ row) !! j = Some w →
                (w ≤ v)%Qc
                ∧ (j < argmax_from (length pre) best_i best_v row → (w < v)%Qc).
Proof.
  revert pre best_i best_v.
  induction row as [|x row IH]; intros pre best_i best_v Hbest Hmax.
  - cbn [argmax_from]. rewrite app_nil_r. by exists best_v.
  - cbn [argmax_from].
    replace (pre ++ x :: row) with ((pre ++ [x]) ++ row)
      by by rewrite <- app_assoc.
    replace (S (length pre)) with (length (pre ++ [x]))
      by (rewrite length_app; cbn; lia).
    destruct (decide (best_v < x)%Qc) as [Hlt|Hge].
    + apply IH.
      * by rewrite lookup_app_r, Nat.sub_diag by lia.
      * intros j w Hj. apply lookup_app_Some in Hj as [Hj|[Hlen Hj]].
        -- pose proof (lookup_lt_Some _ _ _ Hj) as Hjlt.
           destruct (Hmax j w Hj) as [Hle _]. split; [|intros _].
           ++ apply Qclt_le_weak. by eapply Qcle_lt_trans.
           ++ by eapply Qcle_lt_trans.
        -- apply list_lookup_singleton_Some in Hj as [Hj <-].
           split; [apply Qcle_refl|lia].
    + apply Qcnot_lt_le in Hge. apply IH.
      * by apply lookup_app_l_Some.
      * intros j w Hj. apply lookup_app_Some in Hj as [Hj|[Hlen Hj]].
        -- by apply Hmax.
        -- apply list_lookup_singleton_Some in Hj as [Hj <-].
           pose proof (lookup_lt_Some _ _ _ Hbest). split; [done|lia].
Qed.

(** [argmax] returns the first position of the largest entry of the row. *)
Lemma argmax_spec (row : list Qc) (i : nat) :
  argmax row = Some i →
  ∃ v, row !! i = Some v
       ∧ ∀ j w, row !! j = Some w → (w ≤ v)%Qc ∧ (j < i → (w < v)%Qc).
Proof.
  destruct row as [|x row]; [done|]. intros [= <-].
  apply (argmax_from_spec row [x] 0 x); [done|].
  intros j w Hj. apply list_lookup_singleton_Some in Hj as [-> <-].
  split; [apply Qcle_refl|lia].
Qed.

Lemma argmax_is_Some (row : list Qc) : row ≠ [] → is_Some (argmax row).
Proof. destruct row; [done|]. by eexists. Qed.

Lemma is_first_max_spec (row : list Qc) (i : nat) :
  is_first_max row i = true ↔ first_max row i.
Proof.
  unfold is_first_max, first_max. destruct (row !! i) as [v|] eqn:Hv.
  - rewrite <- Is_true_true, forallb_True, Forall_forall. split.
    + intros Hall. exists v. split; [done|]. intros j w Hj.
      specialize (Hall (j, w)). cbn in Hall.
      assert (Is_true (bool_decide (w ≤ v)%Qc
                       && (bool_decide (i ≤ j) || bool_decide (w < v)%Qc)))
        as Hjw.
      { apply Hall, elem_of_lookup_imap. by exists j, w. }
      apply andb_True in Hjw as [Hle Hlt].
      apply bool_decide_unpack in Hle. split; [done|]. intros Hji.
      apply orb_True in Hlt as [Hlt|Hlt]; apply bool_decide_unpack in Hlt;
        [lia|done].
    + intros (v' & [= <-] & Hmax) [j w] Hin.
      apply elem_of_lookup_imap in Hin as (j' & w' & [= -> ->] & Hj).
      destruct (Hmax j' w' Hj) as [Hle Hlt]. cbn.
      apply andb_True. split; [by apply bool_decide_pack|].
      apply orb_True. destruct (decide (i ≤ j')) as [Hij|Hij].
      * left. by apply bool_decide_pack.
      * right. apply bool_decide_pack, Hlt. lia.
  - split; [done|]. by intros (v & [=] & _).
Qed.

Lemma first_max_unique (row : list Qc) (i j : nat) :
  first_max row i → first_max row j → i = j.
Proof.
  intros (v & Hv & Hi) (w & Hw & Hj).
  destruct (Nat.lt_trichotomy i j) as [Hlt|[Heq|Hgt]]; [|done|].
  - destruct (Hj i v Hv) as [_ Hvw]. destruct (Hi j w Hw) as [Hwv _].
    exfalso. by eapply Qclt_not_le; [apply Hvw|].
  - destruct (Hi j w Hw) as [_ Hwv]. destruct (Hj i v Hv) as [Hvw _].
    exfalso. by eapply Qclt_not_le; [apply Hwv|].
Qed.

(** The prediction is the label exactly when the largest entry of the row
    sits at the label. *)
Lemma prediction_hits (row : list Qc) (p : nat) (y : Z) :
  argmax row = Some p →
  Z.of_nat p = y ↔ (0 ≤ y)%Z ∧ is_first_max row (Z.to_nat y) = true.
Proof.
  intros Hp. apply argmax_spec in Hp. split.
  - intros <-. split; [lia|]. rewrite Nat2Z.id. by apply is_first_max_spec.
  - intros [Hy Hmax]. apply is_first_max_spec in Hmax.
    rewrite (first_max_unique row p (Z.to_nat y) Hp Hmax). lia.
Qed.

(** The 0/1 vector of correct predictions sums to the number of hits. *)
Lemma tsum_correct (output : list (list Qc)) :
  ∀ (labels : list Z) (preds : list nat),
    mapM argmax output = Some preds →
    tsum (zip_with eq_double preds labels) = of_nat (hits output labels).
Proof.
  unfold hits.
  induction output as [|row output IH]; intros labels preds Hpreds.
  - injection Hpreds as <-. symmetry. apply Z2Qc_inj_0.
  - rewrite mapM_Some in Hpreds. inversion Hpreds as [|? p ? preds' Hp Hps];
      subst. apply mapM_Some in Hps.
    destruct labels as [|y labels]; [symmetry; apply Z2Qc_inj_0|].
    cbn [zip_with zip]. rewrite tsum_cons, (IH labels preds' Hps).
    unfold eq_double. pose proof (prediction_hits row p y Hp) as Hhit.
    destruct (decide (Z.of_nat p = y)) as [Heq|Hne].
    + rewrite filter_cons_True; [cbn [length]; by rewrite of_nat_S|].
      by apply Hhit.
    + rewrite filter_cons_False; [apply Qcplus_0_l|].
      intros H. by apply Hne, Hhit.
Qed.

(** C10 (as amended).  For an output matrix with as many rows as there are
    labels, at least one row and no empty row, [masked_accuracy] under the
    all-ones mask returns what [accuracy] returns, and both return the
    number of rows whose largest entry (the first one, if it occurs more
    than once) sits at the label, divided by the number of rows. *)
Theorem masked_accuracy_generalises (output : list (list Qc))
    (labels : list Z) :
  length output = length labels →
  0 < length labels →
  Forall (λ row, row ≠ []) output →
  accuracy_is_hit_rate output labels.
Proof.
  intros Hlen Hpos Hrows.
  destruct (mapM_is_Some_2 argmax output) as [preds Hpreds].
  { eapply Forall_impl; [exact Hrows|]. intros row. apply argmax_is_Some. }
  pose proof (length_mapM _ _ _ Hpreds) as Hlp.
  assert (of_nat (length labels) ≠ 0%Qc) as Hn.
  { rewrite of_nat_eq_0. lia. }
  exists (of_nat (hits output labels) / of_nat (length labels))%Qc.
  unfold masked_accuracy, accuracy, correct_preds. rewrite Hpreds. cbn.
  unfold broadcast. rewrite decide_True by lia. cbn.
  unfold broadcast_inplace.
  rewrite decide_True
    by (rewrite length_zip_with, length_fmap, length_replicate; lia).
  cbn. rewrite count_true_replicate.
  assert (zip_with Qcmult (zip_with eq_double preds labels)
            (as_float <$> replicate (length labels) true)
          = zip_with eq_double preds labels) as ->.
  { rewrite fmap_replicate. cbn [as_float].
    assert (length (zip_with eq_double preds labels) ≤ length labels) as Hle.
    { rewrite length_zip_with. lia. }
    revert Hle. generalize (zip_with eq_double preds labels) (length labels).
    intros t. induction t as [|x t IH]; intros [|n] Hle; cbn in *;
      try done; try lia.
    rewrite Qcmult_1_r. f_equal. apply IH. lia. }
  rewrite fdiv_Some by done.
  by rewrite (tsum_correct output labels preds Hpreds).
Qed.

(** C10, witness: three rows, one of which is classified as labelled. *)
Lemma masked_accuracy_generalises_witness :
  length output3 = length labels3
  ∧ 0 < length labels3
  ∧ Forall (λ row, row ≠ []) output3
  ∧ hits output3 labels3 = 1
  ∧ accuracy_is_hit_rate output3 labels3.
Proof.
  assert (Forall (λ row : list Qc, row ≠ []) output3) as Hrows.
  { repeat constructor; done. }
  split_and!; [reflexivity|cbn; lia|exact Hrows|by vm_compute|].
  apply (masked_accuracy_generalises output3 labels3 eq_refl);
    [cbn; lia|exact Hrows].
Defined.

(** C10, counterexample.  With no row at all both functions divide 0 by 0:
    neither returns a number, let alone the hit rate. *)
Lemma accuracy_is_hit_rate_fails : ¬ accuracy_is_hit_rate [] [].
Proof. by intros (q & _ & Hacc & _). Qed.

End MetricsFacts.

(** ** The split masks *)

Module MasksFacts.
Import Masks.

Lemma length_mask_of (num_nodes : nat) (idx : list nat) :
  length (mask_of num_nodes idx) = num_nodes.
Proof.
  unfold mask_of, as_bool_tensor, membership.
  by rewrite !length_fmap, length_seq.
Qed.

Lemma lookup_mask_of (num_nodes : nat) (idx : list nat) (i : nat) :
  mask_of num_nodes idx !! i
  = if decide (i < num_nodes) then Some (bool_decide (i ∈ idx)) else None.
Proof.
  unfold mask_of, as_bool_tensor, membership. rewrite !list_lookup_fmap.
  case_decide as Hi.
  - rewrite lookup_seq_lt by done. cbn.
    f_equal. case_decide.
    + by rewrite !bool_decide_eq_true_2.
    + by rewrite !bool_decide_eq_false_2 by (try done; lia).
  - rewrite lookup_seq_ge by lia. done.
Qed.

Lemma mask_of_true (num_nodes : nat) (idx : list nat) (i : nat) :
  (∀ j, j ∈ idx → j < num_nodes) →
  mask_of num_nodes idx !! i = Some true ↔ i ∈ idx.
Proof.
  intros Hidx. rewrite lookup_mask_of. case_decide as Hi.
  - split; [intros [= H]; by apply bool_decide_eq_true in H|].
    intros H. by rewrite bool_decide_eq_true_2.
  - split; [done|]. intros H. apply Hidx in H. lia.
Qed.

Section Splits.
Variable train_test_split :
  list nat → Qc → list Z → option (list nat * list nat).

(** What the splitter promises: the two parts it returns are the entries of
    the array, each once. *)
Hypothesis split_partitions :
  ∀ arrays test_size stratify part1 part2,
    train_test_split arrays test_size stratify = Some (part1, part2) →
    part1 ++ part2 ≡ₚ arrays.

Lemma splits_partition (num_nodes : nat) (labels : list Z)
    (idx_train idx_val idx_test : list nat) :
  splits train_test_split num_nodes labels
  = Some (idx_train, idx_val, idx_test) →
  idx_train ++ idx_test ++ idx_val ≡ₚ seq 0 num_nodes.
Proof.
  unfold splits. intros Hs.
  destruct (train_test_split (seq 0 num_nodes) _ _) as [[tr te]|] eqn:H1;
    [|done].
  cbn in Hs.
  destruct (train_test_split te _ _) as [[te' va]|] eqn:H2; [|done].
  cbn in Hs. injection Hs as <- <- <-.
  apply split_partitions in H1, H2. by rewrite H2.
Qed.

(** C7.  When both calls of the splitter return, the three masks have one
    entry per node; entry [i] of a mask is true exactly when the splits put
    node [i] into the corresponding index list; and every node is selected
    by exactly one of the three masks (so the masks are pairwise
    disjoint). *)
Theorem masks_select_splits (num_nodes : nat) (labels : list Z)
    (idx_train idx_val idx_test : list nat) :
  splits train_test_split num_nodes labels
  = Some (idx_train, idx_val, idx_test) →
  ∃ train_mask val_mask test_mask,
    masks train_test_split num_nodes labels
    = Some (train_mask, val_mask, test_mask)
    ∧ length train_mask = num_nodes
    ∧ length val_mask = num_nodes
    ∧ length test_mask = num_nodes
    ∧ (∀ i, train_mask !! i = Some true ↔ i ∈ idx_train)
    ∧ (∀ i, val_mask !! i = Some true ↔ i ∈ idx_val)
    ∧ (∀ i, test_mask !! i = Some true ↔ i ∈ idx_test)
    ∧ (∀ i, i < num_nodes →
            one_of_three (train_mask !!! i) (val_mask !!! i)
              (test_mask !!! i)).
Proof.
  intros Hs. pose proof (splits_partition _ _ _ _ _ Hs) as Hperm.
  assert (∀ j, j ∈ idx_train ++ idx_test ++ idx_val ↔ j < num_nodes) as Hin.
  { intros j. rewrite Hperm, elem_of_seq. lia. }
  assert (NoDup (idx_train ++ idx_test ++ idx_val)) as Hnd.
  { rewrite Hperm. apply NoDup_seq. }
  apply NoDup_app in Hnd as (_ & Hd1 & Hnd).
  apply NoDup_app in Hnd as (_ & Hd2 & _).
  eexists _, _, _. split; [unfold masks; by rewrite Hs|].
  rewrite !length_mask_of. split_and!; try done.
  - intros i. apply mask_of_true. intros j Hj. apply Hin. set_solver.
  - intros i. apply mask_of_true. intros j Hj. apply Hin. set_solver.
  - intros i. apply mask_of_true. intros j Hj. apply Hin. set_solver.
  - intros i Hi. unfold one_of_three.
    rewrite !list_lookup_total_alt, !lookup_mask_of, !decide_True by done.
    cbn [default]. apply Hin in Hi.
    destruct (decide (i ∈ idx_train)) as [Ht|Ht];
      destruct (decide (i ∈ idx_val)) as [Hv|Hv];
      destruct (decide (i ∈ idx_test)) as [He|He];
      rewrite ?(bool_decide_eq_true_2 _ Ht), ?(bool_decide_eq_false_2 _ Ht),
        ?(bool_decide_eq_true_2 _ Hv), ?(bool_decide_eq_false_2 _ Hv),
        ?(bool_decide_eq_true_2 _ He), ?(bool_decide_eq_false_2 _ He);
      try (exfalso; set_solver); set_solver.
Qed.

End Splits.

Lemma cut_split_partitions (arrays : list nat) (test_size : Qc)
    (stratify : list Z) (part1 part2 : list nat) :
  cut_split arrays test_size stratify = Some (part1, part2) →
  part1 ++ part2 ≡ₚ arrays.
Proof. intros [= <- <-]. by rewrite take_drop. Qed.

(** C7, witness: ten nodes cut 8 / 1 / 1. *)
Lemma masks_select_splits_witness :
  splits cut_split 10 (replicate 10 0%Z)
  = Some ([0; 1; 2; 3; 4; 5; 6; 7], [9], [8])
  ∧ ∃ train_mask val_mask test_mask,
      masks cut_split 10 (replicate 10 0%Z)
      = Some (train_mask, val_mask, test_mask)
      ∧ length train_mask = 10
      ∧ (∀ i, test_mask !! i = Some true ↔ i ∈ [8])
      ∧ (∀ i, i < 10 →
              one_of_three (train_mask !!! i) (val_mask !!! i)
                (test_mask !!! i)).
Proof.
  assert (splits cut_split 10 (replicate 10 0%Z)
          = Some ([0; 1; 2; 3; 4; 5; 6; 7], [9], [8])) as Hs.
  { by vm_compute. }
  split; [exact Hs|].
  destruct (masks_select_splits cut_split cut_split_partitions 10
              (replicate 10 0%Z) _ _ _ Hs)
    as (tr & va & te & Hm & Hlen & _ & _ & _ & _ & Hte & Hone).
  by exists tr, va, te.
Defined.

End MasksFacts.

(** ** Cluster partitioning and batching *)

Module ClusterFacts.
Import Cluster.

Section GraphFacts.
Context {Row V : Type}.
Implicit Types A B : SparseTensor V.
Implicit Types d : gmap string (item Row V).
Implicit Types cd : ClusterData Row V.

Lemma narrow0_Some A (start len : nat) :
  start + len ≤ nrows A →
  ∃ B, narrow0 A start len = Some B
       ∧ nrows B = len ∧ ncols B = ncols A ∧ has_value B = has_value A
       ∧ ∀ r c v, (r, c, v) ∈ entries B
                  ↔ r < len ∧ (start + r, c, v) ∈ entries A.
Proof.
  intros Hle. unfold narrow0. rewrite decide_True by done.
  eexists. split; [done|]. cbn. split_and!; try done.
  intros r c v. rewrite list_elem_of_fmap. split.
  - intros ([[r' c'] v'] & [= -> -> ->] & Hin).
    apply list_elem_of_filter in Hin as [Hr Hin]. cbn in Hr.
    split; [lia|]. by replace (start + (r' - start)) with r' by lia.
  - intros [Hr Hin]. exists (start + r, c, v). cbn. split.
    + do 2 f_equal. lia.
    + apply list_elem_of_filter. cbn. split; [lia|done].
Qed.

Lemma narrow0_inv A B (start len : nat) :
  narrow0 A start len = Some B →
  start + len ≤ nrows A
  ∧ nrows B = len ∧ ncols B = ncols A ∧ has_value B = has_value A
  ∧ ∀ r c v, (r, c, v) ∈ entries B ↔ r < len ∧ (start + r, c, v) ∈ entries A.
Proof.
  intros HB. assert (start + len ≤ nrows A) as Hle.
  { unfold narrow0 in HB. by case_decide. }
  destruct (narrow0_Some A start len Hle) as (B' & HB' & H).
  rewrite HB in HB'. injection HB' as <-. by split.
Qed.

Lemma elem_of_narrow1 A (start len r c : nat) (v : V) :
  (r, c, v) ∈ entries (narrow1 A start len)
  ↔ c < len ∧ (r, start + c, v) ∈ entries A.
Proof.
  cbn. rewrite list_elem_of_fmap. split.
  - intros ([[r' c'] v'] & [= -> -> ->] & Hin).
    apply list_elem_of_filter in Hin as [Hc Hin]. cbn in Hc.
    split; [lia|]. by replace (start + (c' - start)) with c' by lia.
  - intros [Hc Hin]. exists (r, start + c, v). cbn. split.
    + do 2 f_equal. lia.
    + apply list_elem_of_filter. cbn. split; [lia|done].
Qed.

Lemma elem_of_transpose A (r c : nat) (v : V) :
  (r, c, v) ∈ entries (transpose A) ↔ (c, r, v) ∈ entries A.
Proof.
  cbn. rewrite list_elem_of_fmap. split.
  - by intros ([[r' c'] v'] & [= -> -> ->] & Hin).
  - intros Hin. by exists (c, r, v).
Qed.

(** Rows gathered range by range: the rows of the concatenation are the
    rows of [A] listed by the ranges, in order. *)
Lemma cat_narrow_entries A (ranges : list (nat * nat)) :
  ∀ (tensors : list (SparseTensor V)) (offset : nat),
    Forall2 (λ rg B, narrow0 A rg.1 rg.2 = Some B) ranges tensors →
    sum_list (nrows <$> tensors)
    = length (ranges ≫= λ rg, seq rg.1 rg.2)
    ∧ ∀ i c v,
        (i, c, v) ∈ cat_entries offset tensors
        ↔ ∃ i' a, i = offset + i'
                  ∧ (ranges ≫= λ rg, seq rg.1 rg.2) !! i' = Some a
                  ∧ (a, c, v) ∈ entries A.
Proof.
  induction ranges as [|[s l] ranges IH]; intros tensors offset Hall.
  - apply Forall2_nil_inv_l in Hall as ->. split; [done|].
    intros i c v. cbn. split; [by intros ?%elem_of_nil|].
    by intros (? & ? & _ & ? & _).
  - apply Forall2_cons_inv_l in Hall as (B & rest & HB & Hrest & ->).
    cbn [fst snd] in HB.
    apply narrow0_inv in HB as (Hle & Hrows & _ & _ & HinB).
    destruct (IH rest (offset + nrows B) Hrest) as [Hsum Hin].
    rewrite bind_cons. cbn [fst snd]. split.
    { rewrite fmap_cons. cbn [sum_list]. fold (sum_list (nrows <$> rest)).
      by rewrite length_app, length_seq, Hsum, Hrows. }
    intros i c v. cbn [cat_entries]. rewrite elem_of_app, Hin. split.
    + intros [Hhere|(i' & a & -> & Hi' & Ha)].
      * apply list_elem_of_fmap in Hhere as ([[r c'] v'] & [= -> -> ->] & Hr).
        apply HinB in Hr as [Hr Ha]. exists r, (s + r). split; [done|].
        split; [|done]. rewrite lookup_app_l by by rewrite length_seq.
        by apply lookup_seq_lt.
      * exists (l + i'), a. split; [lia|]. split; [|done].
        rewrite lookup_app_r by (rewrite length_seq; lia).
        rewrite length_seq. by replace (l + i' - l) with i' by lia.
    + intros (i' & a & -> & Hi' & Ha).
      destruct (decide (i' < l)) as [Hlt|Hge].
      * left. rewrite lookup_app_l in Hi' by by rewrite length_seq.
        apply lookup_seq in Hi' as [-> _].
        apply list_elem_of_fmap. exists (i', c, v). split; [done|].
        apply HinB. by split.
      * right. rewrite lookup_app_r in Hi' by (rewrite length_seq; lia).
        rewrite length_seq in Hi'. exists (i' - l), a.
        split; [lia|]. by split.
Qed.

Lemma part_range_Some cd (n idx : nat) :
  monotone_to n (partptr cd) →
  idx + 1 < length (partptr cd) →
  ∃ start len,
    part_range cd idx = Some (start, len)
    ∧ partptr cd !! idx = Some start
    ∧ partptr cd !! (idx + 1) = Some (start + len)
    ∧ start + len ≤ n.
Proof.
  intros (_ & Hlast & Hmono) Hidx.
  destruct (lookup_lt_is_Some_2 (partptr cd) idx) as [start Hstart]; [lia|].
  destruct (lookup_lt_is_Some_2 (partptr cd) (idx + 1)) as [stop Hstop];
    [lia|].
  assert (start ≤ stop) as Hle.
  { apply (Hmono idx (idx + 1)); [lia|done|done]. }
  assert (stop ≤ n) as Hn.
  { rewrite last_lookup in Hlast.
    apply (Hmono (idx + 1) (pred (length (partptr cd)))); [lia|done|done]. }
  exists start, (stop - start). unfold part_range.
  rewrite Hstart, Hstop. cbn. rewrite decide_True by done.
  replace (start + (stop - start)) with stop by lia. done.
Qed.

Lemma narrow_nodes_Some d (n start len : nat) :
  num_nodes d = Some n → start + len ≤ n →
  narrow_nodes start len d = Some (narrowed (Some n) start len <$> d).
Proof.
  intros Hn Hle. unfold narrow_nodes. rewrite Hn.
  rewrite decide_True; [done|].
  intros key it _ [= Hsize]. destruct it as [rows|A]; cbn in *.
  - rewrite decide_True by lia. by eexists.
  - destruct (narrow0_Some A start len) as (B & -> & _); [lia|]. by eexists.
Qed.

Lemma narrowed_dense (n start len : nat) (rows : list Row) :
  start + len ≤ n →
  narrowed (Some n) start len (Dense rows : item Row V)
  = Dense (if decide (length rows = n) then take len (drop start rows)
           else rows).
Proof.
  intros Hle. unfold narrowed. cbn.
  destruct (decide (length rows = n)) as [Hn|Hn].
  - rewrite decide_True by by f_equal. by rewrite decide_True by lia.
  - rewrite decide_False; [done|]. by intros [= ?].
Qed.

Lemma narrowed_sparse A (start len : nat) :
  start + len ≤ nrows A →
  ∃ B, narrow0 A start len = Some B
       ∧ narrowed (Some (nrows A)) start len (Sparse A : item Row V)
         = Sparse B.
Proof.
  intros Hle. destruct (narrow0_Some A start len Hle) as (B & HB & _).
  exists B. split; [done|]. unfold narrowed. cbn.
  rewrite decide_True by done. by rewrite HB.
Qed.

(** Some part holds a node that lies between the first and the last
    pointer. *)
Lemma in_part_exists (ptr : list nat) :
  ∀ (first stop node : nat),
    head ptr = Some first → last ptr = Some stop →
    first ≤ node < stop →
    ∃ part, in_part ptr part node.
Proof.
  induction ptr as [|a ptr IH]; intros first stop node Hhead Hlast Hnode;
    [done|].
  injection Hhead as ->. destruct ptr as [|b ptr].
  - injection Hlast as ->. lia.
  - destruct (decide (node < b)) as [Hlt|Hge].
    + exists 0, first, b. split_and!; try done; lia.
    + destruct (IH b stop node) as (part & x & y & Hx & Hy & Hxy);
        [done|by rewrite last_cons_cons in Hlast|lia|].
      exists (S part), x, y. split_and!; try done; lia.
Qed.

Lemma in_part_unique (n : nat) (ptr : list nat) (part part' node : nat) :
  monotone_to n ptr →
  in_part ptr part node → in_part ptr part' node → part = part'.
Proof.
  intros (_ & _ & Hmono) (a & b & Ha & Hb & Hab) (a' & b' & Ha' & Hb' & Hab').
  destruct (Nat.lt_trichotomy part part') as [Hlt|[Heq|Hgt]]; [|done|].
  - pose proof (Hmono (part + 1) part' b a' ltac:(lia) Hb Ha'). lia.
  - pose proof (Hmono (part' + 1) part b' a ltac:(lia) Hb' Ha). lia.
Qed.

Lemma in_part_bound (n : nat) (ptr : list nat) (part node : nat) :
  monotone_to n ptr → in_part ptr part node → node < n.
Proof.
  intros (_ & Hlast & Hmono) (a & b & Ha & Hb & Hab).
  rewrite last_lookup in Hlast.
  pose proof (lookup_lt_Some _ _ _ Hb).
  pose proof (Hmono (part + 1) (pred (length ptr)) b n ltac:(lia) Hb Hlast).
  lia.
Qed.

(** C4.  For a cluster data object over [n] nodes whose [partptr] is
    monotone from 0 to [n]: [__len__] is the number of pointers minus one;
    [__getitem__(idx)] of a part in range returns a data object in which
    every dense attribute with [n] rows is cut to the rows
    [partptr[idx] .. partptr[idx+1]-1], the other dense attributes are left
    as they are, [adj] is gone, and the edges are those of the adjacency
    with both ends in that range, renumbered from 0; and every node lies in
    the range of exactly one part. *)
Theorem getitem_part (n : nat) A cd (idx : nat) :
  partitioned n A cd →
  idx + 1 < length (partptr cd) →
  cluster_len cd = (Z.of_nat (length (partptr cd)) - 1)%Z
  ∧ (∃ start len out,
       partptr cd !! idx = Some start
       ∧ partptr cd !! (idx + 1) = Some (start + len)
       ∧ getitem cd idx = Some out
       ∧ (∀ key rows,
            data cd !! key = Some (Dense rows) →
            store out !! key
            = Some (Dense (if decide (length rows = n)
                           then take len (drop start rows) else rows)))
       ∧ store out !! "adj" = None
       ∧ ∃ es,
           edge_index out = Some es.*1
           ∧ edge_attr out = (if has_value A then Some es.*2 else None)
           ∧ ∀ i j v, (i, j, v) ∈ es
                      ↔ i < len ∧ j < len
                        ∧ (start + i, start + j, v) ∈ entries A)
  ∧ (∀ node, node < n →
       ∃ part, in_part (partptr cd) part node
               ∧ ∀ part', in_part (partptr cd) part' node → part' = part)
  ∧ (∀ part node, in_part (partptr cd) part node → node < n).
Proof.
  intros (Hn & Hadj & Hrows & Hcols & Hptr) Hidx. split; [done|].
  split_and!.
  - destruct (part_range_Some cd n idx Hptr Hidx)
      as (start & len & Hrange & Hstart & Hstop & Hle).
    destruct (narrowed_sparse A start len) as (B & HB & Hnarrowed);
      [lia|].
    apply narrow0_inv in HB as (_ & HBrows & HBcols & HBval & HBin).
    eexists start, len, _. split; [done|]. split; [done|]. split.
    { unfold getitem. rewrite Hrange. cbn.
      rewrite (narrow_nodes_Some _ n) by done. cbn.
      rewrite lookup_fmap, Hadj. cbn. rewrite <- Hrows, Hnarrowed. cbn.
      reflexivity. }
    cbn. split_and!.
    + intros key rows Hkey. assert (key ≠ "adj") as Hne by congruence.
      rewrite lookup_delete_ne by done.
      rewrite lookup_fmap, Hkey. cbn. f_equal. rewrite Hrows.
      by apply narrowed_dense.
    + apply lookup_delete_eq.
    + exists (entries (narrow1 B start len)). split; [done|]. split.
      { unfold coo_value. cbn [has_value narrow1]. by rewrite HBval. }
      intros i j v. rewrite elem_of_narrow1, HBin. tauto.
  - intros node Hnode. destruct Hptr as (Hhead & Hlast & Hmono).
    destruct (in_part_exists (partptr cd) 0 n node) as [part Hpart];
      [done|done|lia|].
    exists part. split; [done|]. intros part' Hpart'.
    by eapply (in_part_unique n).
  - intros part node. by apply in_part_bound.
Qed.

Lemma mapM_Forall2_ext {X Y Z : Type} (f : X → option Z) (g : Y → option Z)
    (l : list X) (k : list Y) :
  Forall2 (λ x y, f x = g y) l k → mapM f l = mapM g k.
Proof.
  induction 1 as [|x y l k Hxy _ IH]; [done|]. cbn. by rewrite Hxy, IH.
Qed.

Lemma max_list_const (c : nat) (l : list nat) :
  l ≠ [] → Forall (λ x, x = c) l → max_list l = c.
Proof.
  intros Hne Hall. induction Hall as [|x l -> Hall IH]; [done|].
  cbn. destruct l as [|y l]; [cbn; lia|]. rewrite IH by done. lia.
Qed.

Lemma forallb_const {X : Type} (f : X → bool) (b : bool) (l : list X) :
  l ≠ [] → Forall (λ x, f x = b) l → forallb f l = b.
Proof.
  intros Hne Hall. induction Hall as [|x l Hx Hall IH]; [done|].
  cbn. rewrite Hx. destruct l as [|y l]; [cbn; by destruct b|].
  rewrite IH by done. by destruct b.
Qed.

(** Gathering the rows of [T] range by range and concatenating them. *)
Lemma gather_rows (T : SparseTensor V) (ranges : list (nat * nat)) :
  ranges ≠ [] →
  Forall (λ rg, rg.1 + rg.2 ≤ nrows T) ranges →
  ∃ tensors C,
    mapM (λ rg, narrow0 T rg.1 rg.2) ranges = Some tensors
    ∧ cat0 tensors = Some C
    ∧ nrows C = length (ranges ≫= λ rg, seq rg.1 rg.2)
    ∧ ncols C = ncols T
    ∧ has_value C = has_value T
    ∧ ∀ i c v, (i, c, v) ∈ entries C
               ↔ ∃ a, (ranges ≫= λ rg, seq rg.1 rg.2) !! i = Some a
                      ∧ (a, c, v) ∈ entries T.
Proof.
  intros Hne Hall.
  destruct (mapM_is_Some_2 (λ rg, narrow0 T rg.1 rg.2) ranges)
    as [tensors Htensors].
  { eapply Forall_impl; [exact Hall|]. intros [s l] Hle. cbn in *.
    destruct (narrow0_Some T s l Hle) as (B & -> & _). by eexists. }
  pose proof (mapM_Some_1 _ _ _ Htensors) as Hall2.
  destruct (cat_narrow_entries T ranges tensors 0 Hall2) as [Hsum Hin].
  assert (tensors ≠ []) as Hne'.
  { intros ->. apply Forall2_nil_inv_r in Hall2. done. }
  assert (Forall (λ B, ncols B = ncols T ∧ has_value B = has_value T) tensors)
    as Hshape.
  { clear -Hall2. induction Hall2 as [|[s l] B ranges tensors HB _ IH];
      [done|]. constructor; [|done].
    apply narrow0_inv in HB as (_ & _ & ? & ? & _). by split. }
  exists tensors. destruct tensors as [|B tensors]; [done|].
  eexists. split; [done|]. split; [done|]. cbn [nrows ncols has_value entries].
  split_and!.
  - exact Hsum.
  - apply max_list_const; [done|]. apply Forall_fmap.
    eapply Forall_impl; [exact Hshape|]. by intros ? [? ?].
  - apply forallb_const; [done|].
    eapply Forall_impl; [exact Hshape|]. by intros ? [? ?].
  - intros i c v. rewrite Hin. split.
    + intros (i' & a & -> & Hi' & Ha). by exists a.
    + intros (a & Hi & Ha). by exists i, a.
Qed.

(** The ranges of the parts of a batch. *)
Lemma parts_ranges cd (n : nat) (parts : list nat) :
  monotone_to n (partptr cd) →
  Forall (λ part, part + 1 < length (partptr cd)) parts →
  ∃ ranges,
    Forall2 (λ part rg, part_range cd part = Some rg ∧ rg.1 + rg.2 ≤ n)
      parts ranges.
Proof.
  intros Hptr Hparts. induction Hparts as [|part parts Hpart _ [ranges IH]].
  - by exists [].
  - destruct (part_range_Some cd n part Hptr Hpart)
      as (start & len & Hrange & _ & _ & Hle).
    exists ((start, len) :: ranges). by constructor.
Qed.

Lemma batch_nodes_ranges cd (n : nat) (parts : list nat)
    (ranges : list (nat * nat)) :
  Forall2 (λ part rg, part_range cd part = Some rg ∧ rg.1 + rg.2 ≤ n)
    parts ranges →
  batch_nodes cd parts = ranges ≫= λ rg, seq rg.1 rg.2.
Proof.
  unfold batch_nodes.
  induction 1 as [|part [s l] parts ranges [Hrange _] _ IH]; [done|].
  rewrite !bind_cons, IH, Hrange. done.
Qed.

(** The items that the loader hands to [collate]. *)
Lemma helper_batch cd (n : nat) (parts : list nat)
    (ranges : list (nat * nat)) :
  num_nodes (data cd) = Some n →
  Forall2 (λ part rg, part_range cd part = Some rg ∧ rg.1 + rg.2 ≤ n)
    parts ranges →
  ∃ batch,
    mapM (helper_getitem cd) parts = Some batch
    ∧ batch.*2 = parts
    ∧ batch.*1 = (λ rg, narrowed (Some n) rg.1 rg.2 <$> data cd) <$> ranges.
Proof.
  intros Hn.
  induction 1 as [|part [s l] parts ranges [Hrange Hle] _ IH].
  - by exists [].
  - destruct IH as (batch & Hbatch & H2 & H1).
    exists ((narrowed (Some n) s l <$> data cd, part) :: batch).
    split; [|by rewrite !fmap_cons, H1, H2].
    cbn [mapM]. rewrite Hbatch. unfold helper_getitem at 1.
    rewrite Hrange. cbn. rewrite (narrow_nodes_Some _ n) by done. done.
Qed.

(** The attribute loop of [collate] (lines 213-222) meets no failure on
    items that were all cut from the same data object. *)
Lemma collate_keys_Some cd (n : nat) (ranges : list (nat * nat))
    (ref : gmap string (item Row V)) (ref_adj : SparseTensor V) :
  dense_but_adj cd →
  Forall (λ rg, rg.1 + rg.2 ≤ n) ranges →
  (∀ key, is_Some (ref !! key) → is_Some (data cd !! key)) →
  is_Some
    (mapM (λ kv : string * item Row V,
             pair kv.1
               <$> collate_item
                     ((λ rg, narrowed (Some n) rg.1 rg.2 <$> data cd)
                        <$> ranges) ref_adj kv.1 kv.2)
       (map_to_list (delete "adj" ref))).
Proof.
  intros Hdense Hranges Hkeys. apply mapM_is_Some_2, Forall_forall.
  intros [key it] Hin. apply elem_of_map_to_list in Hin.
  apply lookup_delete_Some in Hin as [Hne Hin]. cbn.
  unfold collate_item. case_decide; [by eexists|].
  apply fmap_is_Some, fmap_is_Some. apply mapM_is_Some_2, Forall_fmap.
  eapply Forall_impl; [exact Hranges|]. intros [s l] Hle. cbn in *.
  destruct (Hkeys key) as [it0 Hit0]; [by eexists|].
  destruct (Hdense key it0 Hit0) as [rows Hrows]; [done|].
  destruct it0 as [rows'|]; [|done]. injection Hrows as ->.
  rewrite lookup_fmap, Hit0. cbn. rewrite narrowed_dense by done. by eexists.
Qed.

(** C3.  For a cluster data object over [n] nodes with adjacency [A], whose
    attributes other than [adj] are dense, and a non-empty batch of parts in
    range: the loader's items exist, [collate] returns a data object whose
    [num_nodes] is the number of nodes of the batch (the sum of the sizes
    of its ranges), and whose edges are exactly the entries of [A] between
    two nodes of the batch, each end renumbered by its position in the
    concatenation of the ranges.  So an edge of [A] between two nodes of
    the batch is kept, whether or not they lie in the same part, and an
    edge with an end outside the batch is not. *)
Theorem collate_induced_subgraph (n : nat) A cd (parts : list nat) :
  partitioned n A cd →
  dense_but_adj cd →
  parts ≠ [] →
  Forall (λ part, part + 1 < length (partptr cd)) parts →
  ∃ batch out es,
    mapM (helper_getitem cd) parts = Some batch
    ∧ collate cd batch = Some out
    ∧ num_nodes_attr out = Some (length (batch_nodes cd parts))
    ∧ edge_index out = Some es.*1
    ∧ edge_attr out = (if has_value A then Some es.*2 else None)
    ∧ (∀ i j v,
         (i, j, v) ∈ es
         ↔ ∃ a b, batch_nodes cd parts !! i = Some a
                  ∧ batch_nodes cd parts !! j = Some b
                  ∧ (a, b, v) ∈ entries A)
    ∧ (∀ a b v,
         (a, b, v) ∈ entries A →
         a ∈ batch_nodes cd parts → b ∈ batch_nodes cd parts →
         ∃ i j, (i, j, v) ∈ es
                ∧ batch_nodes cd parts !! i = Some a
                ∧ batch_nodes cd parts !! j = Some b).
Proof.
  intros (Hn & Hadj & Hrows & Hcols & Hptr) Hdense Hne Hparts. subst n.
  set (n := nrows A) in *.
  destruct (parts_ranges cd n parts Hptr Hparts) as [ranges Hranges].
  destruct (helper_batch cd n parts ranges Hn Hranges)
    as (batch & Hbatch & Hb2 & Hb1).
  rewrite (batch_nodes_ranges _ _ _ _ Hranges).
  set (nodes := ranges ≫= λ rg, seq rg.1 rg.2).
  assert (ranges ≠ []) as Hne'.
  { intros ->. apply Forall2_nil_inv_r in Hranges. done. }
  assert (Forall (λ rg, rg.1 + rg.2 ≤ n) ranges) as Hle.
  { clear -Hranges. induction Hranges as [|? ? ? ? [_ ?] _ IH]; by constructor. }
  destruct (gather_rows A ranges Hne' Hle)
    as (adjs1 & C1 & Hm1 & Hc1 & Hr1 & Hcol1 & Hv1 & Hin1).
  destruct (gather_rows (transpose C1) ranges Hne'
              ltac:(by cbn; rewrite Hcol1, Hcols))
    as (adjs2 & C2 & Hm2 & Hc2 & Hr2 & Hcol2 & Hv2 & Hin2).
  fold nodes in Hr1, Hin1, Hr2, Hin2.
  assert (mapM (λ d : gmap string (item Row V), d !! "adj" ≫= as_sparse)
            batch.*1 = Some adjs1) as Hfirst.
  { rewrite <- Hm1, Hb1. apply mapM_Forall2_ext, Forall2_fmap_l.
    apply Forall_Forall2_diag.
    eapply Forall_impl; [exact Hle|]. intros [s l] Hsl. cbn in *.
    rewrite lookup_fmap, Hadj. cbn.
    destruct (narrowed_sparse A s l) as (B & -> & HB); [done|].
    fold n in HB. by rewrite HB. }
  assert (mapM (λ part, '(start, len) ← part_range cd part;
                        narrow0 (transpose C1) start len) batch.*2
          = Some adjs2) as Hsecond.
  { rewrite <- Hm2, Hb2. apply mapM_Forall2_ext.
    eapply Forall2_impl; [exact Hranges|]. by intros part [s l] [-> _]. }
  destruct ranges as [|[s0 l0] ranges']; [done|].
  apply Forall_cons in Hle as Hle0. destruct Hle0 as [Hle0 _]. cbn in Hle0.
  destruct (narrowed_sparse A s0 l0) as (B0 & HB0 & Href_adj); [done|].
  fold n in Href_adj.
  destruct (collate_keys_Some cd n ((s0, l0) :: ranges')
              (narrowed (Some n) s0 l0 <$> data cd) B0 Hdense Hle)
    as [kvs Hkvs].
  { intros key. rewrite lookup_fmap. apply fmap_is_Some. }
  exists batch. eexists. exists (entries (transpose C2)).
  split; [done|]. split.
  { unfold collate. cbn zeta. rewrite Hfirst. cbn. rewrite Hc1. cbn.
    rewrite Hsecond. cbn. rewrite Hc2. cbn. rewrite Hb1. cbn.
    rewrite lookup_fmap, Hadj. cbn. rewrite Href_adj. cbn.
    cbn in Hkvs. rewrite Hkvs. cbn. reflexivity. }
  cbn [num_nodes_attr edge_index edge_attr].
  assert (∀ i j v,
            (i, j, v) ∈ entries (transpose C2)
            ↔ ∃ a b, nodes !! i = Some a ∧ nodes !! j = Some b
                     ∧ (a, b, v) ∈ entries A) as Hedges.
  { intros i j v. rewrite elem_of_transpose, Hin2. split.
    - intros (b & Hb & Hin). apply elem_of_transpose, Hin1 in Hin.
      destruct Hin as (a & Ha & Hin). by exists a, b.
    - intros (a & b & Ha & Hb & Hin). exists b. split; [done|].
      apply elem_of_transpose, Hin1. by exists a. }
  split_and!.
  - rewrite Hcol2. cbn [ncols transpose]. by rewrite Hr1.
  - done.
  - unfold coo_value. cbn [has_value transpose].
    rewrite Hv2. cbn [has_value transpose]. by rewrite Hv1.
  - exact Hedges.
  - intros a b v Hin Ha Hb.
    apply list_elem_of_lookup in Ha as [i Hi].
    apply list_elem_of_lookup in Hb as [j Hj].
    exists i, j. split; [|done]. apply Hedges. by exists a, b.
Qed.

End GraphFacts.

End ClusterFacts.
